(** * VSCode-Gerrit: change cache and comment-thread reconstruction

    A shallow embedding of [src/lib/gerritCache.ts] (the change cache
    [GerritChangeCache], the per-document [DocumentCommentManager] and the
    process-wide [CommentManager]) and of [uniqueComplex] from
    [src/lib/util.ts], together with the properties the design document
    states about them.

    Conventions.
    - A JS [Map] is a [gmap]; a JS array is a [list].
    - A JS value of type [T | null | undefined] is a [JSResult T].
    - An optional field ([side?], [inReplyTo?], [range?], [line?]) is an
      [option]; JS truthiness of the field is written out where the code
      tests it.
    - The recursion of [_getAllRepliesTo] is not structural; it is embedded
      with a fuel argument that bounds the depth of the call stack.  [None]
      means the bound was hit. *)

From Stdlib Require Import ZArith Lia Ascii.
From Stdlib Require OrderedTypeEx.
From stdpp Require Import base option list sorting relations strings gmap.

Local Open Scope Z_scope.

(** ** JavaScript values that may be [null] or [undefined] *)

Inductive JSResult (T : Type) : Type :=
| JSNull : JSResult T
| JSUndefined : JSResult T
| JSValue : T → JSResult T.
Arguments JSNull {T}.
Arguments JSUndefined {T}.
Arguments JSValue {T} _.

(** [Map.prototype.get]: the stored value, or [undefined]. *)
Definition map_get `{Countable K} {V} (m : gmap K V) (k : K) : JSResult V :=
  match m !! k with
  | Some v => JSValue v
  | None => JSUndefined
  end.

(** ** [Array.prototype.sort]

    The built-in sort is stable: elements that the order does not separate
    keep their relative position.  It is embedded as an insertion sort that
    puts an element before the first element that is not smaller. *)

Section stable_sort.
Context {A : Type} (R : relation A) `{!RelDecision R}.

Fixpoint insert_sorted (x : A) (l : list A) : list A :=
  match l with
  | [] => [x]
  | y :: l' => if decide (R x y) then x :: y :: l' else y :: insert_sorted x l'
  end.

Definition stable_sort (l : list A) : list A := foldr insert_sorted [] l.

End stable_sort.

(** The default comparator of [sort()] orders strings by their code units:
    the lexicographic order of [String.leb]. *)
Definition string_le (s1 s2 : string) : Prop := String.leb s1 s2 = true.

#[global] Instance string_le_dec : RelDecision string_le.
Proof. intros s1 s2. unfold string_le. apply _. Defined.

(** ** The change cache ([GerritChangeCache]) *)

(** A change, with the fields the sources read ([change.changeID],
    [change.number]). *)
Record GerritChange : Type := mkChange {
  changeID : string;
  number : Z;
}.

#[global] Instance GerritChange_eq_dec : EqDecision GerritChange.
Proof. solve_decision. Defined.

(** A member of the [GerritAPIWith] enum.  [sort()] compares the string
    conversions of the elements and [join] concatenates them, so a member is
    represented by its string conversion. *)
Definition GerritAPIWith : Type := string.

Module GerritChangeCache.

(** The field [_cache : Map<string, Map<string, GerritChange>>]. *)
Abbreviation t := (gmap string (gmap string GerritChange)).

Definition empty : t := ∅.

(** [withValues.sort().join('.')] *)
Definition _withValuesToString (withValues : list GerritAPIWith) : string :=
  String.concat "." (stable_sort string_le withValues).

(** [set]: creates the sub-map of [changeId] on first use, then stores
    [change] under the normalized key.  The inner [Map] is updated in place,
    which is the outer entry replaced by the updated inner map.  ([sort()]
    also reorders the caller's array; the cache does not keep the array.) *)
Definition set (_cache : t) (changeId : string)
    (withValues : list GerritAPIWith) (change : GerritChange) : t :=
  let _cache1 :=
    if decide (is_Some (_cache !! changeId)) then _cache
    else <[changeId := ∅]> _cache in
  match _cache1 !! changeId with
  | Some inner =>
      <[changeId := <[_withValuesToString withValues := change]> inner]> _cache1
  | None => _cache1
  end.

Definition has (_cache : t) (changeId : string)
    (withValues : list GerritAPIWith) : bool :=
  bool_decide (is_Some (_cache !! changeId)) &&
  match _cache !! changeId with
  | Some inner => bool_decide (is_Some (inner !! _withValuesToString withValues))
  | None => false
  end.

Definition get (_cache : t) (changeId : string)
    (withValues : list GerritAPIWith) : JSResult GerritChange :=
  match _cache !! changeId with
  | None => JSNull
  | Some inner => map_get inner (_withValuesToString withValues)
  end.

(** One call of [set], and the cache reached from the empty one by a
    sequence of such calls (every cache state the program can be in). *)
Definition SetCall : Type := string * list GerritAPIWith * GerritChange.

Definition callId (op : SetCall) : string := op.1.1.
Definition callKey (op : SetCall) : string := _withValuesToString op.1.2.
Definition callChange (op : SetCall) : GerritChange := op.2.

Definition replay (ops : list SetCall) : t :=
  foldl (λ c op, set c op.1.1 op.1.2 op.2) empty ops.

End GerritChangeCache.

(** ** [uniqueComplex] ([src/lib/util.ts])

    The loop pushes an item unless [items.find] returns a truthy item with
    the same key: [find] returns the first item with the key, or [undefined],
    and [if (!alreadyPushed)] tests what it returned for truthiness.  An
    item that is falsy (an empty string, [0], [false], [null]) is therefore
    no obstacle to pushing further items with its key. *)

(** The JS truthiness of the values of a type. *)
Class Truthy (T : Type) := truthy : T → bool.

(** A type of objects: all its values are truthy. *)
Class Objects (T : Type) `{Truthy T} : Prop :=
  object_truthy : ∀ x : T, truthy x = true.

(** A string is falsy when it is empty. *)
#[global] Instance string_truthy : Truthy string :=
  λ s, bool_decide (s ≠ EmptyString).

(** The body of the loop: [items] after the turn for [item]. *)
Definition uniqueComplex_push `{Truthy T} (key : T → string)
    (items : list T) (item : T) : list T :=
  let keyValue := key item in
  match List.find (λ i, String.eqb (key i) keyValue) items with
  | Some alreadyPushed =>
      if truthy alreadyPushed then items else items ++ [item]
  | None => items ++ [item]
  end.

Definition uniqueComplex `{Truthy T} (arr : list T) (key : T → string) : list T :=
  foldl (uniqueComplex_push key) [] arr.

(** ** Comments *)

(** Modelled from the spec: the enum [GerritCommentSide]
    ([lib/gerritAPI/types.ts] is not among the sources), "which revision side
    (base/target) the comment anchors to".  [RIGHT] is the member the sources
    name; [LEFT] is the other side. *)
Inductive GerritCommentSide : Type := LEFT | RIGHT.

#[global] Instance GerritCommentSide_eq_dec : EqDecision GerritCommentSide.
Proof. solve_decision. Defined.

(** Modelled from the spec: the range of a comment
    ([lib/gerritAPI/gerritComment.ts] is not among the sources), "a range
    (start/end line+character)". *)
Record GerritCommentRange : Type := mkGerritRange {
  start_line : Z;
  start_character : Z;
  end_line : Z;
  end_character : Z;
}.

#[global] Instance GerritCommentRange_eq_dec : EqDecision GerritCommentRange.
Proof. solve_decision. Defined.

(** The fields of a [GerritCommentBase] that the comment manager reads:
    [id], [inReplyTo], [updated], [side], [range] and [line].  [updated] is
    the comment's time stamp as a number. *)
Module Comment.
Record t : Type := mk {
  id : string;
  inReplyTo : option string;
  updated : Z;
  side : option GerritCommentSide;
  range : option GerritCommentRange;
  line : option Z;
}.
End Comment.

Abbreviation GerritCommentBase := Comment.t.

#[global] Instance GerritCommentBase_eq_dec : EqDecision GerritCommentBase.
Proof. solve_decision. Defined.

(** A comment is an object, hence truthy. *)
#[global] Instance GerritCommentBase_truthy : Truthy GerritCommentBase :=
  λ _, true.

(** [!c.inReplyTo]: the field is absent, or it is the empty string. *)
Definition js_not_string (s : option string) : Prop :=
  s = None ∨ s = Some "".

#[global] Instance js_not_string_dec s : Decision (js_not_string s).
Proof. unfold js_not_string. apply _. Defined.

(** The order of the time stamps. *)
Definition updated_le (a b : GerritCommentBase) : Prop :=
  (Comment.updated a ≤ Comment.updated b)%Z.

#[global] Instance updated_le_dec : RelDecision updated_le.
Proof. intros a b. unfold updated_le. apply _. Defined.

(** Modelled from the spec: [DateTime.sortByDate] with
    [DateSortDirection.INCREASING_TIME] and the key [c => c.updated]
    ([lib/dateTime.ts] is not among the sources).  "Sort each resulting set
    by [updated] ascending": a stable sort of the thread on the [updated]
    time stamp. *)
Definition sortByDate (t : list GerritCommentBase) : list GerritCommentBase :=
  stable_sort updated_le t.

(** ** How a call ends *)

(** A call returns a value or it throws (for an [async] function: the
    promise is fulfilled or rejected). *)
Inductive Completion (T : Type) : Type :=
| Normal : T → Completion T
| Throw : Completion T.
Arguments Normal {T} _.
Arguments Throw {T}.

#[global] Instance Completion_eq_dec `{EqDecision T} : EqDecision (Completion T).
Proof. solve_decision. Defined.

(** Sequencing: a throwing step ends the computation. *)
#[global] Instance Completion_bind : MBind Completion :=
  λ A B f m, match m with Normal x => f x | Throw => Throw end.

(** ** The editor's side: positions, ranges and comment threads *)

Module vscode.
Record Position : Type := mkPosition { line : Z; character : Z }.
Record Range : Type := mkRange { start : Position; end_ : Position }.

#[global] Instance Position_eq_dec : EqDecision Position.
Proof. solve_decision. Defined.

#[global] Instance Range_eq_dec : EqDecision Range.
Proof. solve_decision. Defined.

(** [new Position(line, character)].  The editor's constructor accepts no
    negative number: it throws when [line] or [character] is below zero. *)
Definition newPosition (line character : Z) : Completion Position :=
  if decide (line < 0 ∨ character < 0) then Throw
  else Normal (mkPosition line character).

Definition Uri : Type := string.
(** The thread object [CommentController.createCommentThread] returns.
    [handle] tells the objects apart: it is the number of threads the
    controller had created before. *)
Record CommentThread : Type := mkCommentThread {
  handle : nat;
  uri : Uri;
  range : Range;
  comments : list GerritCommentBase;
}.
(** A comment controller, as the list of threads it has created. *)
Definition CommentController : Type := list CommentThread.
Definition createCommentThread (c : CommentController) (u : Uri) (r : Range)
    (cs : list GerritCommentBase) : CommentThread * CommentController :=
  let th := mkCommentThread (length c) u r cs in (th, c ++ [th]).
End vscode.

(** The wrapper [GerritCommentThread] around an editor thread, with the
    comments [setComments] stores in it. *)
Record GerritCommentThread : Type := mkGerritCommentThread {
  thread : vscode.CommentThread;
  threadComments : list GerritCommentBase;
}.

Definition setComments (th : GerritCommentThread)
    (cs : list GerritCommentBase) : GerritCommentThread :=
  mkGerritCommentThread (thread th) cs.

(** What [FileProvider.tryGetFileMeta] yields for a document of a change,
    with the fields the sources read ([changeId], [commit], [filePath],
    [side]). *)
Record FileMeta : Type := mkFileMeta {
  changeId : string;
  commit : string;
  filePath : string;
  metaSide : GerritCommentSide;
}.

(** The value of an awaited promise: fulfilled with a value, or rejected. *)
Inductive Awaited (T : Type) : Type :=
| Fulfilled : T → Awaited T
| Rejected : Awaited T.
Arguments Fulfilled {T} _.
Arguments Rejected {T}.

(** [for (const x of l) { body }] over a state that the body updates in
    place; a throwing body ends the loop with the state reached so far. *)
Fixpoint for_of {S A : Type} (body : A → S → Completion unit * S)
    (l : list A) (s : S) : Completion unit * S :=
  match l with
  | [] => (Normal (), s)
  | x :: l' =>
      match body x s with
      | (Normal _, s') => for_of body l' s'
      | (Throw, s') => (Throw, s')
      end
  end.

(** ** The per-document registry ([DocumentCommentManager]) *)

Module DocumentCommentManager.

Record t : Type := mk {
  document : vscode.Uri;
  _threadMap : gmap string GerritCommentThread;
  _threadLineCount : gmap Z Z;
}.

(** [new DocumentCommentManager(document, commentController)] *)
Definition new (document : vscode.Uri) : t := mk document ∅ ∅.

(** [_getAllRepliesTo]: the comment, its direct replies, then everything
    the recursive calls on the direct replies return, deduplicated by id.
    [fuel] bounds the depth of the recursion. *)
Fixpoint _getAllRepliesTo (fuel : nat) (comment : GerritCommentBase)
    (allComments : list GerritCommentBase) : option (list GerritCommentBase) :=
  match fuel with
  | O => None
  | S fuel' =>
      let directReplies :=
        filter (λ c, Comment.inReplyTo c = Some (Comment.id comment)) allComments in
      nested ← mapM (λ reply, _getAllRepliesTo fuel' reply allComments) directReplies;
      Some (uniqueComplex ([comment] ++ directReplies ++ concat nested) Comment.id)
  end.

(** [_buildThreadsFromComments]: one thread per comment with a falsy
    [inReplyTo], each sorted by [updated]. *)
Definition _buildThreadsFromComments (fuel : nat)
    (comments : list GerritCommentBase) : option (list (list GerritCommentBase)) :=
  threads ← mapM (λ c, _getAllRepliesTo fuel c comments)
                 (filter (λ c, js_not_string (Comment.inReplyTo c)) comments);
  Some (sortByDate <$> threads).

Definition getThreadByComment (this : t) (comment : GerritCommentBase)
    : option GerritCommentThread :=
  _threadMap this !! Comment.id comment.

Definition getLineThreadCount (this : t) (lineNumber : Z) : Z :=
  default 0 (_threadLineCount this !! lineNumber).

Definition registerComments (this : t) (thread : GerritCommentThread)
    (comments : list GerritCommentBase) : t :=
  mk (document this)
     (foldl (λ m comment, <[Comment.id comment := thread]> m) (_threadMap this) comments)
     (_threadLineCount this).

Definition registerNewThread (this : t) (thread : GerritCommentThread) : t :=
  registerComments this thread (threadComments thread).

Section Methods.

(** What the sources leave to other files of the repository:
    - the JS truthiness of a member of the enum [GerritCommentSide];
    - [GerritComment.gerritRangeToVSCodeRange];
    - [FileProvider.tryGetFileMeta];
    - [GerritCommentThread.from]. *)
Variable truthy_side : GerritCommentSide → bool.
Variable gerritRangeToVSCodeRange : GerritCommentRange → Completion vscode.Range.
Variable tryGetFileMeta : vscode.Uri → option FileMeta.
Variable GerritCommentThread_from : vscode.CommentThread → option GerritCommentThread.

(** [getCommentRange]: [comment.range] is tested first, then
    [comment.line], which is falsy when absent or [0].  The call throws when
    the conversion of the range throws, and when [new Position] does: for a
    comment without range whose line is negative. *)
Definition getCommentRange (comment : GerritCommentBase)
    : Completion (option vscode.Range) :=
  match Comment.range comment with
  | Some r =>
      range ← gerritRangeToVSCodeRange r;
      Normal (Some range)
  | None =>
      match Comment.line comment with
      | Some l =>
          if decide (l = 0) then Normal None
          else
            start ← vscode.newPosition (l - 1) 0;
            end_ ← vscode.newPosition (l - 1) 0;
            Normal (Some (vscode.mkRange start end_))
      | None => Normal None
      end
  end.

(** The callback of [allComments.filter] in [loadComments]:
    [c.side ?? GerritCommentSide.RIGHT === fileMeta.side].  [===] binds
    tighter than [??], so the callback returns [c.side] when the comment has
    a side and [RIGHT === fileMeta.side] otherwise; [filter] keeps the
    comment when that value is truthy. *)
Definition thisSideCallback (fileMeta : FileMeta) (c : GerritCommentBase) : bool :=
  match Comment.side c with
  | Some s => truthy_side s
  | None => bool_decide (RIGHT = metaSide fileMeta)
  end.

(** [getCommentRange(thread[0])?.start.line ?? -1]; reading [thread[0]] of
    an empty array gives [undefined], whose [range] cannot be read. *)
Definition threadLine (thread : list GerritCommentBase) : Completion Z :=
  match head thread with
  | None => Throw
  | Some c0 =>
      match getCommentRange c0 with
      | Throw => Throw
      | Normal (Some r) => Normal (vscode.line (vscode.start r))
      | Normal None => Normal (-1)
      end
  end.

(** Body of the first loop of [loadComments]. *)
Definition countThread (thread : list GerritCommentBase) (this : t)
    : Completion unit * t :=
  match threadLine thread with
  | Throw => (Throw, this)
  | Normal line =>
      (Normal (),
       mk (document this) (_threadMap this)
          (<[line := default 0 (_threadLineCount this !! line) + 1]>
             (_threadLineCount this)))
  end.

(** [createCommentThread]: [null] when the first comment has no range. *)
Definition createCommentThread (this : t) (commentController : vscode.CommentController)
    (comments : list GerritCommentBase)
    : Completion (option GerritCommentThread) * vscode.CommentController :=
  match head comments with
  | None => (Throw, commentController)
  | Some c0 =>
      match getCommentRange c0 with
      | Throw => (Throw, commentController)
      | Normal None => (Normal None, commentController)
      | Normal (Some range) =>
          let (vscodeThread, commentController') :=
            vscode.createCommentThread commentController (document this) range comments in
          (Normal ((λ th, setComments th comments) <$>
                     GerritCommentThread_from vscodeThread),
           commentController')
      end
  end.

(** Body of the second loop of [loadComments]. *)
Definition registerThread (thread : list GerritCommentBase)
    (s : t * vscode.CommentController) : Completion unit * (t * vscode.CommentController) :=
  let (this, commentController) := s in
  match createCommentThread this commentController thread with
  | (Throw, commentController') => (Throw, (this, commentController'))
  | (Normal None, commentController') => (Normal (), (this, commentController'))
  | (Normal (Some commentThread), commentController') =>
      (Normal (), (registerComments this commentThread thread, commentController'))
  end.

(** The first comment of a thread has a range: the thread can be placed. *)
Definition hasAnchor (thread : list GerritCommentBase) : Prop :=
  ∃ c0 range, head thread = Some c0 ∧ getCommentRange c0 = Normal (Some range).

(** [getCommentRange] does not throw on the first comment of a thread. *)
Definition rangeDefined (thread : list GerritCommentBase) : Prop :=
  match head thread with
  | Some c0 => getCommentRange c0 ≠ Throw
  | None => True
  end.

(** The threads [loadComments] builds from the two fetched maps. *)
Definition loadedThreads (fuel : nat) (fileMeta : FileMeta)
    (fetched fetchedDrafts : gmap string (list GerritCommentBase))
    : option (list (list GerritCommentBase)) :=
  let comments := default [] (fetched !! filePath fileMeta) in
  let draftComments := default [] (fetchedDrafts !! filePath fileMeta) in
  let allComments := comments ++ draftComments in
  let thisSideComments :=
    filter (λ c, thisSideCallback fileMeta c = true) allComments in
  built ← _buildThreadsFromComments fuel thisSideComments;
  Some (filter (λ t, length t ≠ 0%nat) built).

(** [loadComments].  The two awaited fetches are given by their outcomes;
    the second one is only awaited when the first one is fulfilled.  The
    result is how the returned promise settles, with the registry and the
    comment controller as the call leaves them; [None] when [fuel] does not
    suffice for the thread builder. *)
Definition loadComments (fuel : nat) (this : t)
    (commentController : vscode.CommentController)
    (getForMeta getDraftsForMeta : Awaited (gmap string (list GerritCommentBase)))
    : option (Completion unit * (t * vscode.CommentController)) :=
  match tryGetFileMeta (document this) with
  | None => Some (Normal (), (this, commentController))
  | Some fileMeta =>
      match getForMeta with
      | Rejected => Some (Throw, (this, commentController))
      | Fulfilled fetched =>
          match getDraftsForMeta with
          | Rejected => Some (Throw, (this, commentController))
          | Fulfilled fetchedDrafts =>
              threads ← loadedThreads fuel fileMeta fetched fetchedDrafts;
              match for_of countThread threads this with
              | (Throw, this') => Some (Throw, (this', commentController))
              | (Normal _, this') =>
                  Some (for_of registerThread threads (this', commentController))
              end
          end
      end
  end.

End Methods.

#[global] Instance rangeDefined_dec g thread : Decision (rangeDefined g thread).
Proof. unfold rangeDefined. destruct (head thread); apply _. Defined.

End DocumentCommentManager.

(** ** The process-wide directory ([CommentManager])

    The two static maps hold [DocumentCommentManager] objects.  An object is
    a position in [objects], the registries created so far, so that one
    registry held by both maps is the same object. *)

Module CommentManager.

Record t : Type := mk {
  objects : list DocumentCommentManager.t;
  _commentManagers : gmap string nat;
  _commentManagersByFilePath : gmap string (list nat);
}.

Definition init : t := mk [] ∅ ∅.

Section Methods.

(** [FileProvider.tryGetFileMeta] and [FileProvider.fileMetaToKey] are not
    among the sources. *)
Variable tryGetFileMeta : vscode.Uri → option FileMeta.
Variable fileMetaToKey : FileMeta → string.

(** The synchronous part of the [provideCommentingRanges] callback, up to
    the [await manager.loadComments()]: the new registry is put into both
    maps. *)
Definition provideCommentingRanges (st : t) (document : vscode.Uri) : t :=
  match tryGetFileMeta document with
  | None => st
  | Some meta =>
      let manager := length (objects st) in
      let objects' := objects st ++ [DocumentCommentManager.new document] in
      let byKey := <[fileMetaToKey meta := manager]> (_commentManagers st) in
      let byPath :=
        if decide (is_Some (_commentManagersByFilePath st !! filePath meta))
        then _commentManagersByFilePath st
        else <[filePath meta := []]> (_commentManagersByFilePath st) in
      match byPath !! filePath meta with
      | Some managers =>
          mk objects' byKey (<[filePath meta := managers ++ [manager]]> byPath)
      | None => mk objects' byKey byPath
      end
  end.

(** [getFileManagersForUri]: the list stored for the file path when there
    is one; otherwise a new registry is created and stored in
    [_commentManagers], and [_commentManagersByFilePath] is read again. *)
Definition getFileManagersForUri (st : t) (uri : vscode.Uri) : list nat * t :=
  match tryGetFileMeta uri with
  | None => ([], st)
  | Some meta =>
      match _commentManagersByFilePath st !! filePath meta with
      | Some managers => (managers, st)
      | None =>
          let manager := length (objects st) in
          let st' :=
            mk (objects st ++ [DocumentCommentManager.new uri])
               (<[fileMetaToKey meta := manager]> (_commentManagers st))
               (_commentManagersByFilePath st) in
          (default [] (_commentManagersByFilePath st' !! filePath meta), st')
      end
  end.

End Methods.

End CommentManager.

(** * Notions used to state the properties *)

(** ** Option names and stored entities *)

(** An option name the normalizer can tell apart: not empty, and without
    the separator. *)
Fixpoint contains_char (ch : Ascii.ascii) (s : string) : bool :=
  match s with
  | EmptyString => false
  | String a s' => Ascii.eqb a ch || contains_char ch s'
  end.

Definition validOption (s : string) : Prop :=
  s ≠ "" ∧ contains_char "."%char s = false.

#[global] Instance validOption_dec s : Decision (validOption s).
Proof. unfold validOption. apply _. Defined.

(** What follows the first element in a joined string: nothing, or the
    separator and the rest. *)
Definition joinRest (l : list string) : string :=
  match l with
  | [] => ""
  | _ :: _ => String "."%char (String.concat "." l)
  end.

(** The entity last stored under an id and a key by a sequence of calls. *)
Definition lastStored (ops : list GerritChangeCache.SetCall)
    (i k : string) (e : GerritChange) : Prop :=
  ∃ ops1 op ops2,
    ops = ops1 ++ op :: ops2 ∧
    GerritChangeCache.callId op = i ∧
    GerritChangeCache.callKey op = k ∧
    GerritChangeCache.callChange op = e ∧
    ∀ op', op' ∈ ops2 → GerritChangeCache.callId op' = i →
           GerritChangeCache.callKey op' ≠ k.

(** ** The reply graph of a list of comments *)

(** A root for the thread builder: [!c.inReplyTo]. *)
Definition isRoot (c : GerritCommentBase) : Prop :=
  js_not_string (Comment.inReplyTo c).

(** [c] is a comment of the list that replies to the id of [d]. *)
Definition repliesTo (all : list GerritCommentBase) (d c : GerritCommentBase) : Prop :=
  c ∈ all ∧ Comment.inReplyTo c = Some (Comment.id d).

(** [c] is [r] or is reached from [r] through replies of the list. *)
Definition reaches (all : list GerritCommentBase) (r c : GerritCommentBase) : Prop :=
  rtc (repliesTo all) r c.

(** [r] is a root of the list from which the replies lead to [c]. *)
Definition ultimateRoot (all : list GerritCommentBase) (c r : GerritCommentBase) : Prop :=
  r ∈ all ∧ isRoot r ∧ reaches all r c.

(** A chain of replies that descends from a root of the list; the deepest
    reply comes first, the root last. *)
Inductive replyChain (all : list GerritCommentBase) : list GerritCommentBase → Prop :=
| chain_root r :
    r ∈ all → isRoot r → replyChain all [r]
| chain_reply c d l :
    replyChain all (d :: l) → repliesTo all d c → replyChain all (c :: d :: l).

(** The reply chain of [c] is broken: following [inReplyTo] upwards through
    comments of the list meets an id that no comment of the list has. *)
Inductive chainBroken (all : list GerritCommentBase) : GerritCommentBase → Prop :=
| broken_here c p :
    Comment.inReplyTo c = Some p → p ∉ Comment.id <$> all → chainBroken all c
| broken_above c d :
    d ∈ all → Comment.inReplyTo c = Some (Comment.id d) → chainBroken all d →
    chainBroken all c.

(** [c] is in one thread of the output and in no other, and that thread
    also holds [r]. *)
Definition inOneThreadWith (c r : GerritCommentBase)
    (threads : list (list GerritCommentBase)) : Prop :=
  ∃ l1 t l2, threads = l1 ++ t :: l2 ∧ c ∈ t ∧ r ∈ t ∧
             ∀ t', t' ∈ l1 ++ l2 → c ∉ t'.

(** [c] is in no thread of the output. *)
Definition omitted (c : GerritCommentBase)
    (threads : list (list GerritCommentBase)) : Prop :=
  ∀ t, t ∈ threads → c ∉ t.

(** The two filters of the thread builder, by name. *)
Definition directReplies (comment : GerritCommentBase)
    (allComments : list GerritCommentBase) : list GerritCommentBase :=
  filter (λ c, Comment.inReplyTo c = Some (Comment.id comment)) allComments.

Definition rootsOf (comments : list GerritCommentBase) : list GerritCommentBase :=
  filter (λ c, js_not_string (Comment.inReplyTo c)) comments.

(** ** Sides *)

(** The side filter as the design document words it: the side of the
    comment, [RIGHT] when the comment has none, is the side of the
    document. *)
Definition sideAsSpecified (fileMeta : FileMeta) (c : GerritCommentBase) : bool :=
  bool_decide (default RIGHT (Comment.side c) = metaSide fileMeta).

(** ** Sample comments *)

Module Sample.
(** Three chained comments and a reply to an id that is not there. *)
Definition c1 : GerritCommentBase := Comment.mk "1" None 10 None None None.
Definition c2 : GerritCommentBase := Comment.mk "2" (Some "1") 20 None None None.
Definition c3 : GerritCommentBase := Comment.mk "3" (Some "2") 30 None None None.
Definition orphan : GerritCommentBase := Comment.mk "4" (Some "99") 40 None None None.
(** A second root and its reply. *)
Definition e1 : GerritCommentBase := Comment.mk "5" None 15 None None None.
Definition e2 : GerritCommentBase := Comment.mk "6" (Some "5") 25 None None None.
(** Two replies with the id ["2"], and a reply to that id. *)
Definition d2 : GerritCommentBase := Comment.mk "2" (Some "1") 5 None None None.
Definition d2' : GerritCommentBase := Comment.mk "2" (Some "1") 7 None None None.
Definition d3 : GerritCommentBase := Comment.mk "3" (Some "2") 3 None None None.
(** A comment that replies to its own id, which is also the id of [c1]. *)
Definition loop : GerritCommentBase := Comment.mk "1" (Some "1") 10 None None None.
(** A comment with the empty id, and a comment whose [inReplyTo] is the
    empty string. *)
Definition emptyId : GerritCommentBase := Comment.mk "" None 10 None None None.
Definition emptyReply : GerritCommentBase := Comment.mk "a" (Some "") 20 None None None.
(** A root on the left side, with line 7. *)
Definition leftRoot : GerritCommentBase :=
  Comment.mk "L" None 10 (Some LEFT) None (Some 7).
(** A root without range and line, and an older reply to it on line 3. *)
Definition lateRoot : GerritCommentBase := Comment.mk "r" None 10 None None None.
Definition earlyReply : GerritCommentBase :=
  Comment.mk "x" (Some "r") 5 None None (Some 3).
(** A second root with the id of [lateRoot], on line 5. *)
Definition rootTwin : GerritCommentBase := Comment.mk "r" None 20 None None (Some 5).
(** A root whose line is [-1]. *)
Definition negativeRoot : GerritCommentBase :=
  Comment.mk "n" None 5 None None (Some (-1)).
(** A document of the right side, and stand-ins for the functions of the
    files that are not among the sources. *)
Definition metaRight : FileMeta := mkFileMeta "I1" "abc" "a.ts" RIGHT.
Definition truthyAlways (s : GerritCommentSide) : bool := true.
Definition rangeOf (r : GerritCommentRange) : Completion vscode.Range :=
  start ← vscode.newPosition (start_line r - 1) (start_character r);
  end_ ← vscode.newPosition (end_line r - 1) (end_character r);
  Normal (vscode.mkRange start end_).
Definition metaOf (u : vscode.Uri) : option FileMeta := Some metaRight.
Definition keyOf (m : FileMeta) : string := filePath m.
Definition wrap (th : vscode.CommentThread) : option GerritCommentThread :=
  Some (mkGerritCommentThread th []).
(** A cache with one change stored under the options [LABELS]. *)
Definition cacheLabels : GerritChangeCache.t :=
  GerritChangeCache.set GerritChangeCache.empty "I1" ["LABELS"] (mkChange "I1" 1).
End Sample.

(** * More of the sources *)

(** ** [uniqueSimple] ([src/lib/util.ts])

    [[...new Set(arr)]]: a [Set] holds a value once, at the position of its
    first insertion, and spreads its values in insertion order. *)

(** [Set.prototype.add] on a set given by its values in insertion order. *)
Definition Set_add `{EqDecision T} (s : list T) (x : T) : list T :=
  if decide (x ∈ s) then s else s ++ [x].

Definition uniqueSimple `{EqDecision T} (arr : list T) : list T :=
  foldl Set_add [] arr.

(** ** [optionalObjectProperty] ([src/lib/util.ts])

    An object is the map of its own properties; a property whose value is
    [undefined] is a key with the value [None].  The [for ... in] loop copies
    the properties whose value is not [undefined] into [newObj]. *)
Definition optionalObjectProperty {V : Type} (object : gmap string (option V))
    : gmap string V :=
  map_fold (λ key value newObj,
              match value with
              | Some v => <[key := v]> newObj
              | None => newObj
              end) ∅ object.

(** ** The context properties ([src/lib/vscode/context.ts]) *)

(** A value of a context property: a boolean, a string or [null];
    [CUndefined] is what reading a missing property gives. *)
Inductive ContextValue : Type :=
| CBool (b : bool)
| CString (s : string)
| CNull
| CUndefined.

#[global] Instance ContextValue_eq_dec : EqDecision ContextValue.
Proof. solve_decision. Defined.

Module Context.

(** The object [contextProps]: its properties in insertion order. *)
Definition Props : Type := list (string * ContextValue).

(** [contextProps[key] = value]: an existing property keeps its position,
    a new one is added at the end. *)
Fixpoint assign (o : Props) (key : string) (value : ContextValue) : Props :=
  match o with
  | [] => [(key, value)]
  | (k, v) :: o' =>
      if decide (k = key) then (k, value) :: o'
      else (k, v) :: assign o' key value
  end.

(** [contextProps[key]] *)
Fixpoint read (o : Props) (key : string) : ContextValue :=
  match o with
  | [] => CUndefined
  | (k, v) :: o' => if decide (k = key) then v else read o' key
  end.

(** The module's state: the object, and the calls
    [commands.executeCommand('setContext', key, value)] made so far. *)
Record t : Type := mk {
  contextProps : Props;
  setContextCalls : list (string * ContextValue);
}.

(** The initial value of [contextProps]. *)
Definition init : t :=
  mk [("gerrit:isUsingGerrit", CBool false);
      ("gerrit:connected", CBool false);
      ("gerrit:searchQuery", CNull)] [].

(** [setContextProp]: the assignment, then the command. *)
Definition setContextProp (w : t) (key : string) (value : ContextValue) : t :=
  mk (assign (contextProps w) key value) (setContextCalls w ++ [(key, value)]).

Definition getContextProp (w : t) (key : string) : ContextValue :=
  read (contextProps w) key.

(** [setDefaultContexts]: [Object.keys(contextProps)] is taken once; the
    callback of [map] runs for each key in turn, and each call of
    [setContextProp] reads the value the property has at that time. *)
Definition setDefaultContexts (w : t) : t :=
  foldl (λ w' key, setContextProp w' key (read (contextProps w') key))
        w (contextProps w).*1.

End Context.

(** ** Editor threads created by [loadComments]

    [th] is an editor thread made for one of [threads]: a thread with an
    anchor that holds a comment of the id [k], and whose comments [th]
    stores. *)
Definition createdFor
    (gerritRangeToVSCodeRange : GerritCommentRange → Completion vscode.Range)
    (threads : list (list GerritCommentBase))
    (k : string) (th : GerritCommentThread) : Prop :=
  ∃ t, t ∈ threads ∧
       DocumentCommentManager.hasAnchor gerritRangeToVSCodeRange t ∧
       k ∈ Comment.id <$> t ∧ threadComments th = t.

(** The first comment of [thread] has a range, as a decidable test. *)
Definition anchored
    (gerritRangeToVSCodeRange : GerritCommentRange → Completion vscode.Range)
    (thread : list GerritCommentBase) : Prop :=
  match head thread with
  | Some c0 =>
      match DocumentCommentManager.getCommentRange gerritRangeToVSCodeRange c0 with
      | Normal (Some _) => True
      | _ => False
      end
  | None => False
  end.

#[global] Instance anchored_dec g thread : Decision (anchored g thread).
Proof.
  unfold anchored. destruct (head thread) as [c0|]; [|apply _].
  destruct (DocumentCommentManager.getCommentRange g c0) as [[r|]|]; apply _.
Defined.

(** ** Closing documents and disposing registries *)

(** [DocumentCommentManager.dispose]: every value of [_threadMap] is
    disposed and the map is cleared.  The result lists the threads on which
    [dispose()] was called, one for each key of the map. *)
Definition DocumentCommentManager_dispose (this : DocumentCommentManager.t)
    : list GerritCommentThread * DocumentCommentManager.t :=
  ((map_to_list (DocumentCommentManager._threadMap this)).*2,
   DocumentCommentManager.mk (DocumentCommentManager.document this) ∅
     (DocumentCommentManager._threadLineCount this)).

Section Closing.

Variable tryGetFileMeta : vscode.Uri → option FileMeta.
Variable fileMetaToKey : FileMeta → string.

(** The listener of [workspace.onDidCloseTextDocument] that
    [CommentManager.init] installs: the registry stored under the key of the
    document is disposed and its key deleted. *)
Definition onDidCloseTextDocument (st : CommentManager.t) (doc : vscode.Uri)
    : list GerritCommentThread * CommentManager.t :=
  match tryGetFileMeta doc with
  | None => ([], st)
  | Some meta =>
      let key := fileMetaToKey meta in
      match CommentManager._commentManagers st !! key with
      | None => ([], st)
      | Some manager =>
          let (disposed, objects') :=
            match CommentManager.objects st !! manager with
            | Some object =>
                let (disposed, object') := DocumentCommentManager_dispose object in
                (disposed, <[manager := object']> (CommentManager.objects st))
            | None => ([], CommentManager.objects st)
            end in
          (disposed,
           CommentManager.mk objects'
             (delete key (CommentManager._commentManagers st))
             (CommentManager._commentManagersByFilePath st))
      end
  end.

End Closing.


(** * Properties *)

(** ** The stable sort *)

Section stable_sort_facts.
Context {A : Type} (R : relation A) `{!RelDecision R}.

Lemma insert_sorted_Permutation x l : insert_sorted R x l ≡ₚ x :: l.
Proof.
  induction l as [|y l IH]; simpl; [done|].
  destruct (decide (R x y)); [done|]. by rewrite IH, Permutation_swap.
Qed.

Lemma stable_sort_Permutation l : stable_sort R l ≡ₚ l.
Proof.
  induction l as [|x l IH]; simpl; [done|].
  by rewrite insert_sorted_Permutation, IH.
Qed.

Lemma HdRel_insert_sorted y x l :
  R y x → HdRel R y l → HdRel R y (insert_sorted R x l).
Proof.
  intros Hyx Hyl. destruct l as [|z l]; simpl; [by constructor|].
  destruct (decide (R x z)); constructor; [done|]. by inversion Hyl.
Qed.

Lemma Sorted_insert_sorted `{!Total R} x l :
  Sorted R l → Sorted R (insert_sorted R x l).
Proof.
  induction 1 as [|y l Hl IH Hy]; simpl; [by repeat constructor|].
  destruct (decide (R x y)) as [Hxy|Hxy].
  - constructor; [by constructor|by constructor].
  - constructor; [done|]. apply HdRel_insert_sorted; [|done].
    by destruct (total R x y).
Qed.

Lemma Sorted_stable_sort `{!Total R} l : Sorted R (stable_sort R l).
Proof.
  induction l as [|x l IH]; simpl; [constructor|]. by apply Sorted_insert_sorted.
Qed.

Lemma StronglySorted_stable_sort `{!Transitive R, !Total R} l :
  StronglySorted R (stable_sort R l).
Proof. apply Sorted_StronglySorted; [done|]. apply Sorted_stable_sort. Qed.

(** Elements that the order does not separate keep their position: an
    element goes before the elements that are not smaller. *)
Lemma stable_sort_cons_least x l :
  Forall (R x) l → stable_sort R (x :: l) = x :: stable_sort R l.
Proof.
  intros Hx. simpl.
  assert (Forall (R x) (stable_sort R l)) as Hs by (by rewrite stable_sort_Permutation).
  destruct Hs as [|y s Hy _]; simpl; [done|]. by rewrite decide_True.
Qed.

End stable_sort_facts.

(** ** The order of [sort()] on strings *)

Lemma string_compare_Lt_trans (a b c : string) :
  String.compare a b = Lt → String.compare b c = Lt → String.compare a c = Lt.
Proof.
  intros Hab Hbc.
  apply OrderedTypeEx.String_as_OT.cmp_lt.
  apply OrderedTypeEx.String_as_OT.lt_trans with b;
    by apply OrderedTypeEx.String_as_OT.cmp_lt.
Qed.

#[global] Instance string_le_total : Total string_le.
Proof. intros s1 s2. apply String.leb_total. Qed.

#[global] Instance string_le_antisymm : AntiSymm (=) string_le.
Proof. intros s1 s2. apply String.leb_antisym. Qed.

#[global] Instance string_le_trans : Transitive string_le.
Proof.
  intros a b c. unfold string_le, String.leb.
  destruct (String.compare a b) eqn:Hab; [| |done].
  - apply String.compare_eq_iff in Hab as ->. done.
  - destruct (String.compare b c) eqn:Hbc; [| |done].
    + apply String.compare_eq_iff in Hbc as <-. by rewrite Hab.
    + by rewrite (string_compare_Lt_trans a b c).
Qed.

(** ** The key normalizer *)



Lemma string_app_String (a : ascii) (s t : string) :
  String a s +:+ t = String a (s +:+ t).
Proof. reflexivity. Qed.

Lemma string_app_Empty (t : string) : "" +:+ t = t.
Proof. reflexivity. Qed.

Lemma string_app_empty_r (s : string) : s +:+ "" = s.
Proof. induction s as [|a s IH]; [done|]. by rewrite string_app_String, IH. Qed.

Lemma concat_cons_rest (a : string) (l : list string) :
  String.concat "." (a :: l) = a +:+ joinRest l.
Proof. destruct l; [symmetry; apply string_app_empty_r|done]. Qed.

Lemma joinRest_shape (l : list string) :
  joinRest l = "" ∨ ∃ r, joinRest l = String "."%char r.
Proof. destruct l; [by left|right; eauto]. Qed.

Lemma token_prefix_inj (a b ra rb : string) :
  contains_char "."%char a = false → contains_char "."%char b = false →
  (ra = "" ∨ ∃ r, ra = String "."%char r) →
  (rb = "" ∨ ∃ r, rb = String "."%char r) →
  a +:+ ra = b +:+ rb → a = b ∧ ra = rb.
Proof.
  revert b. induction a as [|x a IH]; intros [|y b] Ha Hb Hra Hrb Heq;
    rewrite ?string_app_String, ?string_app_Empty in Heq; simpl in *.
  - done.
  - apply orb_false_iff in Hb as [Hy _].
    destruct Hra as [->|[r ->]]; [done|].
    injection Heq as <- _. by rewrite Ascii.eqb_refl in Hy.
  - apply orb_false_iff in Ha as [Hx _].
    destruct Hrb as [->|[r ->]]; [done|].
    injection Heq as -> _. by rewrite Ascii.eqb_refl in Hx.
  - apply orb_false_iff in Ha as [_ Ha]. apply orb_false_iff in Hb as [_ Hb].
    injection Heq as -> Heq.
    destruct (IH b Ha Hb Hra Hrb Heq) as [-> ->]. done.
Qed.

Lemma concat_valid_nonempty (a : string) (l : list string) :
  a ≠ "" → String.concat "." (a :: l) ≠ "".
Proof.
  intros Ha. rewrite concat_cons_rest. destruct a; [done|].
  by rewrite string_app_String.
Qed.

Lemma concat_valid_inj (l1 l2 : list string) :
  Forall validOption l1 → Forall validOption l2 →
  String.concat "." l1 = String.concat "." l2 → l1 = l2.
Proof.
  revert l2. induction l1 as [|a l1 IH]; intros [|b l2] H1 H2 Heq.
  - done.
  - apply Forall_cons in H2 as [[Hb _] _].
    symmetry in Heq. by apply concat_valid_nonempty in Heq.
  - apply Forall_cons in H1 as [[Ha _] _].
    by apply concat_valid_nonempty in Heq.
  - apply Forall_cons in H1 as [[_ Ha] H1]. apply Forall_cons in H2 as [[_ Hb] H2].
    rewrite !concat_cons_rest in Heq.
    apply token_prefix_inj in Heq as [-> Hrest];
      [|done|done|apply joinRest_shape|apply joinRest_shape].
    f_equal. destruct l1 as [|a1 l1], l2 as [|b2 l2]; simpl in Hrest; try done.
    injection Hrest as Hrest. by apply IH.
Qed.

Lemma withValuesToString_Permutation (l1 l2 : list GerritAPIWith) :
  l1 ≡ₚ l2 →
  GerritChangeCache._withValuesToString l1 = GerritChangeCache._withValuesToString l2.
Proof.
  intros Hp. unfold GerritChangeCache._withValuesToString. f_equal.
  apply (Sorted_unique string_le); [apply Sorted_stable_sort, _..|].
  by rewrite !stable_sort_Permutation.
Qed.

Lemma withValuesToString_inj (l1 l2 : list GerritAPIWith) :
  Forall validOption l1 → Forall validOption l2 →
  GerritChangeCache._withValuesToString l1 = GerritChangeCache._withValuesToString l2 →
  l1 ≡ₚ l2.
Proof.
  intros H1 H2 Heq. unfold GerritChangeCache._withValuesToString in Heq.
  apply concat_valid_inj in Heq.
  - by rewrite <-(stable_sort_Permutation string_le l1), Heq, stable_sort_Permutation.
  - by rewrite stable_sort_Permutation.
  - by rewrite stable_sort_Permutation.
Qed.

(** C7, as stated, fails: the normalizer sorts but does not deduplicate.
    [['a','a']] and [['a']] denote the same set of options and get the keys
    ["a.a"] and ["a"].  And the empty name, which does not contain the
    separator, makes two different sets collide: [[]] and [['']] both get
    the empty key. *)
Lemma C7_duplicates_counterexample :
  ((∀ x : GerritAPIWith, x ∈ ["a"; "a"] ↔ x ∈ ["a"]) ∧
   Forall validOption ["a"; "a"] ∧ Forall validOption ["a"] ∧
   GerritChangeCache._withValuesToString ["a"; "a"] = "a.a" ∧
   GerritChangeCache._withValuesToString ["a"] = "a" ∧
   GerritChangeCache._withValuesToString ["a"; "a"]
     ≠ GerritChangeCache._withValuesToString ["a"]) ∧
  (contains_char "."%char "" = false ∧ ("" : GerritAPIWith) ∈ [""] ∧ (("" : GerritAPIWith) ∉ []) ∧
   GerritChangeCache._withValuesToString []
     = GerritChangeCache._withValuesToString [""]).
Proof.
  split.
  - split; [intros x; rewrite !elem_of_cons; tauto|].
    repeat split; try done; by repeat constructor.
  - repeat split; try done; [by left|apply not_elem_of_nil].
Qed.

(** C7 (amended): for option collections of non-empty names without the
    separator, two collections get the same key exactly when they hold the
    same options the same number of times (one is a permutation of the
    other); so the order never matters, collections denoting different sets
    get different keys, and [normalize ['b','a'] = normalize ['a','b']],
    [normalize ['a'] ≠ normalize ['a','b']]. *)
Theorem C7_normalize_key_iff_same_multiset (l1 l2 : list GerritAPIWith) :
  Forall validOption l1 → Forall validOption l2 →
  (GerritChangeCache._withValuesToString l1 = GerritChangeCache._withValuesToString l2
     ↔ l1 ≡ₚ l2) ∧
  ((∃ x, (x ∈ l1 ∧ x ∉ l2) ∨ (x ∈ l2 ∧ x ∉ l1)) →
     GerritChangeCache._withValuesToString l1 ≠ GerritChangeCache._withValuesToString l2) ∧
  GerritChangeCache._withValuesToString ["b"; "a"]
    = GerritChangeCache._withValuesToString ["a"; "b"] ∧
  GerritChangeCache._withValuesToString ["a"]
    ≠ GerritChangeCache._withValuesToString ["a"; "b"].
Proof.
  intros H1 H2. split; [|split; [|done]].
  - split; [by apply withValuesToString_inj|apply withValuesToString_Permutation].
  - intros [x Hx] Heq. apply withValuesToString_inj in Heq; [|done..].
    destruct Hx as [[Hin Hnot]|[Hin Hnot]]; apply Hnot.
    + by rewrite <-Heq.
    + by rewrite Heq.
Qed.

Lemma C7_normalize_key_iff_same_multiset_witness :
  Forall validOption ["LABELS"; "DETAILED_ACCOUNTS"] ∧
  Forall validOption ["DETAILED_ACCOUNTS"; "LABELS"] ∧
  (GerritChangeCache._withValuesToString ["LABELS"; "DETAILED_ACCOUNTS"]
     = GerritChangeCache._withValuesToString ["DETAILED_ACCOUNTS"; "LABELS"]
     ↔ ["LABELS"; "DETAILED_ACCOUNTS"] ≡ₚ ["DETAILED_ACCOUNTS"; "LABELS"]).
Proof.
  assert (H1 : Forall validOption ["LABELS"; "DETAILED_ACCOUNTS"])
    by (repeat constructor; done).
  assert (H2 : Forall validOption ["DETAILED_ACCOUNTS"; "LABELS"])
    by (repeat constructor; done).
  split; [exact H1|]. split; [exact H2|].
  exact (proj1 (C7_normalize_key_iff_same_multiset
                  ["LABELS"; "DETAILED_ACCOUNTS"] ["DETAILED_ACCOUNTS"; "LABELS"] H1 H2)).
Defined.

(** ** The change cache *)

Section cache_facts.
Import GerritChangeCache.

(** What [get] returns after one [set], for every id and option list. *)
Lemma get_set (c : GerritChangeCache.t) i w e j w' :
  get (set c i w e) j w' =
    if decide (i = j) then
      if decide (_withValuesToString w = _withValuesToString w') then JSValue e
      else match get c j w' with JSNull => JSUndefined | r => r end
    else get c j w'.
Proof.
  unfold get, set, map_get.
  destruct (decide (i = j)) as [<-|Hij].
  - destruct (c !! i) as [inner|] eqn:Hc.
    + rewrite decide_True by eauto. rewrite Hc, lookup_insert_eq.
      destruct (decide _) as [<-|Hk]; [by rewrite lookup_insert_eq|].
      rewrite lookup_insert_ne by done. by destruct (inner !! _).
    + rewrite decide_False by (by intros [? ?]).
      rewrite lookup_insert_eq, lookup_insert_eq.
      destruct (decide _) as [<-|Hk]; [by rewrite lookup_insert_eq|].
      by rewrite lookup_insert_ne, lookup_empty.
  - destruct (decide (is_Some (c !! i))) as [[inner Hc]|Hn].
    + rewrite Hc. by rewrite lookup_insert_ne.
    + rewrite lookup_insert_eq. by rewrite !lookup_insert_ne.
Qed.

Lemma get_set_same (c : GerritChangeCache.t) i w e :
  get (set c i w e) i w = JSValue e.
Proof. rewrite get_set. by rewrite !decide_True. Qed.

Lemma has_true_iff (c : GerritChangeCache.t) i w :
  has c i w = true ↔ ∃ e, get c i w = JSValue e.
Proof.
  unfold has, get, map_get.
  destruct (c !! i) as [inner|]; [destruct (inner !! _) as [e|]|];
    rewrite andb_true_iff, ?bool_decide_eq_true.
  - split; [by eexists|]. intros _. split; by eexists.
  - split; [by intros [_ [? ?]]|by intros [? ?]].
  - split; [by intros [[? ?] _]|by intros [? ?]].
Qed.

Lemma replay_snoc ops op :
  replay (ops ++ [op]) = set (replay ops) op.1.1 op.1.2 op.2.
Proof. unfold replay. by rewrite foldl_snoc. Qed.

Lemma snoc_split_inv {A} (ops : list A) op ops1 x ops2 :
  ops ++ [op] = ops1 ++ x :: ops2 →
  (ops2 = [] ∧ ops = ops1 ∧ op = x) ∨
  (∃ ops2', ops2 = ops2' ++ [op] ∧ ops = ops1 ++ x :: ops2').
Proof.
  intros Heq. destruct ops2 as [|y ops2 _] using rev_ind.
  - left. apply app_inj_tail in Heq as [-> ->]. done.
  - right. exists ops2.
    change (ops ++ [op] = ops1 ++ (x :: ops2) ++ [y]) in Heq.
    rewrite app_assoc in Heq. apply app_inj_tail in Heq as [-> ->]. done.
Qed.


Lemma lastStored_snoc_other ops op i k e :
  ¬ (callId op = i ∧ callKey op = k) →
  lastStored (ops ++ [op]) i k e ↔ lastStored ops i k e.
Proof.
  intros Hop. split.
  - intros (ops1 & x & ops2 & Heq & Hi & Hk & He & Hlast).
    apply snoc_split_inv in Heq as [(-> & -> & ->)|(ops2' & -> & ->)]; [tauto|].
    exists ops1, x, ops2'. repeat split; try done.
    intros op' Hin. apply Hlast, elem_of_app. by left.
  - intros (ops1 & x & ops2 & -> & Hi & Hk & He & Hlast).
    exists ops1, x, (ops2 ++ [op]). rewrite <-app_assoc. repeat split; try done.
    intros op' [Hin| ->%list_elem_of_singleton]%elem_of_app; [by apply Hlast|].
    intros ??. by apply Hop.
Qed.

Lemma lastStored_snoc_same ops op e :
  lastStored (ops ++ [op]) (callId op) (callKey op) e ↔ callChange op = e.
Proof.
  split.
  - intros (ops1 & x & ops2 & Heq & Hi & Hk & He & Hlast).
    apply snoc_split_inv in Heq as [(-> & -> & ->)|(ops2' & -> & ->)]; [done|].
    exfalso. eapply (Hlast op); [|done..]. apply elem_of_app. right. by left.
  - intros <-. exists ops, op, []. repeat split; try done.
    intros op' Hin. by apply elem_of_nil in Hin.
Qed.

(** The three results of [get] on a cache built by [set] calls. *)
Lemma get_replay (ops : list SetCall) (i : string) (w : list GerritAPIWith) :
  (get (replay ops) i w = JSNull ↔ ∀ op, op ∈ ops → callId op ≠ i) ∧
  (get (replay ops) i w = JSUndefined ↔
     (∃ op, op ∈ ops ∧ callId op = i) ∧
     ∀ op, op ∈ ops → callId op = i → callKey op ≠ _withValuesToString w) ∧
  (∀ e, get (replay ops) i w = JSValue e ↔ lastStored ops i (_withValuesToString w) e).
Proof.
  induction ops as [|op ops IH] using rev_ind.
  - unfold replay, get, empty. simpl. rewrite lookup_empty.
    split; [|split].
    + split; [|done]. intros _ op Hin. by apply elem_of_nil in Hin.
    + split; [done|]. intros [(op & Hin & _) _]. by apply elem_of_nil in Hin.
    + intros e. split; [done|].
      intros (ops1 & x & ops2 & Heq & _). by destruct ops1.
  - destruct IH as (IHn & IHu & IHv).
    rewrite replay_snoc, get_set.
    assert (Hmem : ∀ P : SetCall → Prop,
               (∀ x, x ∈ ops ++ [op] → P x) ↔ (∀ x, x ∈ ops → P x) ∧ P op).
    { intros P. setoid_rewrite elem_of_app. setoid_rewrite list_elem_of_singleton.
      split.
      - intros H. split; [intros x Hx; apply H; by left|apply H; by right].
      - intros [H1 H2] x [Hx| ->]; [by apply H1|done]. }
    change (op.1.1) with (callId op).
    change (_withValuesToString op.1.2) with (callKey op).
    destruct (decide (callId op = i)) as [Hi|Hi].
    + destruct (decide (callKey op = _withValuesToString w)) as [Hk|Hk].
      * split; [|split].
        -- split; [done|]. intros H. exfalso. apply (H op); [|done].
           apply elem_of_app. right. by left.
        -- split; [done|]. intros [_ H]. exfalso. apply (H op); [|done..].
           apply elem_of_app. right. by left.
        -- intros e. rewrite <-Hi, <-Hk, lastStored_snoc_same.
           unfold callChange. split; [by intros [= ->]|by intros ->].
      * split; [|split].
        -- split; [by destruct (get (replay ops) i w)|].
           intros H. exfalso. apply (H op); [|done].
           apply elem_of_app. right. by left.
        -- rewrite Hmem. split.
           ++ intros Hget. split; [exists op; split; [|done];
                                   apply elem_of_app; right; by left|].
              split; [|done].
              destruct (get (replay ops) i w) eqn:Hold; [|by apply IHu|done].
              intros x Hin Hx. exfalso. by apply (proj1 IHn eq_refl x).
           ++ intros [_ [Hall _]].
              destruct (get (replay ops) i w) as [| |e] eqn:Hold; [done..|].
              exfalso.
              destruct (proj1 (IHv e) eq_refl) as (ops1 & x & ops2 & -> & Hxi & Hxk & _).
              apply (Hall x); [|done..]. apply elem_of_app. right. by left.
        -- intros e. rewrite lastStored_snoc_other by tauto. rewrite <-IHv.
           by destruct (get (replay ops) i w).
    + split; [|split].
      * rewrite IHn, Hmem. tauto.
      * rewrite IHu, Hmem. split.
        -- intros [(x & Hx & Hxi) Hall]. split; [|by split].
           exists x. split; [apply elem_of_app; by left|done].
        -- intros [(x & Hx & Hxi) [Hall _]]. split; [|done].
           apply elem_of_app in Hx as [Hx| ->%list_elem_of_singleton]; [eauto|done].
      * intros e. rewrite lastStored_snoc_other by tauto. apply IHv.
Qed.

End cache_facts.

Section cache_claims.
Import GerritChangeCache.

(** C5: [get] on a cache built by any sequence of [set] calls returns
    [null] exactly when no call used the id; [undefined] exactly when some
    call used the id and none used it with the normalized key of the options;
    and the entity [e] exactly when [e] is what the last call under that id
    and key stored.  A [set] followed by a [get] with the same id and options
    returns the entity just stored. *)
Theorem C5_get_null_undefined_or_entity
    (ops : list SetCall) (changeId : string) (withValues : list GerritAPIWith) :
  (get (replay ops) changeId withValues = JSNull ↔
     ∀ op, op ∈ ops → callId op ≠ changeId) ∧
  (get (replay ops) changeId withValues = JSUndefined ↔
     (∃ op, op ∈ ops ∧ callId op = changeId) ∧
     ∀ op, op ∈ ops → callId op = changeId →
           callKey op ≠ _withValuesToString withValues) ∧
  (∀ e, get (replay ops) changeId withValues = JSValue e ↔
        lastStored ops changeId (_withValuesToString withValues) e) ∧
  (∀ e, get (set (replay ops) changeId withValues e) changeId withValues = JSValue e).
Proof.
  destruct (get_replay ops changeId withValues) as (Hn & Hu & Hv).
  split; [exact Hn|]. split; [exact Hu|]. split; [exact Hv|].
  intros e. apply get_set_same.
Qed.

(** C6, as stated, fails: a second [set] under the same id and key replaces
    the stored entity. *)
Lemma C6_overwrite_counterexample :
  get Sample.cacheLabels "I1" ["LABELS"] = JSValue (mkChange "I1" 1) ∧
  get (set Sample.cacheLabels "I1" ["LABELS"] (mkChange "I1" 2)) "I1" ["LABELS"]
    = JSValue (mkChange "I1" 2) ∧
  get (set Sample.cacheLabels "I1" ["LABELS"] (mkChange "I1" 2)) "I1" ["LABELS"]
    ≠ get Sample.cacheLabels "I1" ["LABELS"].
Proof.
  unfold Sample.cacheLabels. rewrite !get_set_same. done.
Qed.

(** C6 (amended): [set] stores the entity under its own (id, key) pair,
    replacing what that pair held (last write wins), and changes no entity
    held under another id or another normalized key; nothing is merged. *)
Theorem C6_set_replaces_own_key_only
    (c : GerritChangeCache.t) (i : string) (w : list GerritAPIWith) (e : GerritChange)
    (j : string) (w' : list GerritAPIWith) (e' : GerritChange) :
  j ≠ i ∨ _withValuesToString w' ≠ _withValuesToString w →
  get c j w' = JSValue e' →
  get (set c i w e) i w = JSValue e ∧ get (set c i w e) j w' = JSValue e'.
Proof.
  intros Hne Hget. split; [apply get_set_same|].
  rewrite get_set, Hget.
  destruct (decide (i = j)) as [<-|]; [|done].
  destruct (decide _) as [Hk|]; [|done]. destruct Hne; congruence.
Qed.

Lemma C6_set_replaces_own_key_only_witness :
  ("I1" ≠ "I1" ∨ _withValuesToString ["LABELS"]
                   ≠ _withValuesToString ["LABELS"; "MESSAGES"]) ∧
  get Sample.cacheLabels "I1" ["LABELS"] = JSValue (mkChange "I1" 1) ∧
  get (set Sample.cacheLabels "I1" ["LABELS"; "MESSAGES"] (mkChange "I1" 2))
      "I1" ["LABELS"; "MESSAGES"]
    = JSValue (mkChange "I1" 2) ∧
  get (set Sample.cacheLabels "I1" ["LABELS"; "MESSAGES"] (mkChange "I1" 2))
      "I1" ["LABELS"]
    = JSValue (mkChange "I1" 1).
Proof.
  assert (H1 : "I1" ≠ "I1" ∨ _withValuesToString ["LABELS"]
                   ≠ _withValuesToString ["LABELS"; "MESSAGES"]) by (by right).
  assert (H2 : get Sample.cacheLabels "I1" ["LABELS"] = JSValue (mkChange "I1" 1))
    by (by vm_compute).
  split; [exact H1|]. split; [exact H2|].
  exact (C6_set_replaces_own_key_only Sample.cacheLabels
           "I1" ["LABELS"; "MESSAGES"] (mkChange "I1" 2)
           "I1" ["LABELS"] (mkChange "I1" 1) H1 H2).
Defined.

End cache_claims.

(** ** [uniqueComplex] *)

#[global] Instance GerritCommentBase_objects : Objects GerritCommentBase.
Proof. by intros x. Qed.

(** On objects, the item that [find] returns is truthy. *)
Section uniqueComplex_facts.
Context `{Objects T} (key : T → string).

Local Abbreviation push := (uniqueComplex_push key).

Lemma uniqueComplex_foldl (arr : list T) :
  uniqueComplex arr key = foldl push [] arr.
Proof. reflexivity. Qed.

Lemma push_found items item :
  (∃ y, y ∈ items ∧ key y = key item) → push items item = items.
Proof.
  intros (y & Hy & Hk). unfold uniqueComplex_push.
  destruct (List.find _ items) eqn:Hf; [by rewrite object_truthy|].
  apply list_elem_of_In in Hy.
  apply (find_none _ _ Hf) in Hy. apply String.eqb_neq in Hy. done.
Qed.

Lemma push_fresh items item :
  (∀ y, y ∈ items → key y ≠ key item) → push items item = items ++ [item].
Proof.
  intros Hfresh. unfold uniqueComplex_push.
  destruct (List.find _ items) as [y|] eqn:Hf; [|done].
  apply find_some in Hf as [Hy Hk]. apply String.eqb_eq in Hk.
  apply list_elem_of_In in Hy. by apply Hfresh in Hy.
Qed.

Lemma push_cases items item :
  (push items item = items ∧ ∃ y, y ∈ items ∧ key y = key item) ∨
  (push items item = items ++ [item] ∧ ∀ y, y ∈ items → key y ≠ key item).
Proof.
  unfold uniqueComplex_push. destruct (List.find _ items) as [y|] eqn:Hf.
  - left. split; [by rewrite object_truthy|]. apply find_some in Hf as [Hy Hk].
    apply String.eqb_eq in Hk. apply list_elem_of_In in Hy. eauto.
  - right. split; [done|]. intros y Hy%list_elem_of_In.
    apply (find_none _ _ Hf) in Hy. by apply String.eqb_neq in Hy.
Qed.

Lemma foldl_push_elem_of arr items x :
  x ∈ foldl push items arr → x ∈ items ∨ x ∈ arr.
Proof.
  revert items. induction arr as [|a arr IH]; intros items Hx; cbn [foldl] in *.
  - by left.
  - apply IH in Hx as [Hx|Hx]; [|right; by right].
    destruct (push_cases items a) as [[Heq _]|[Heq _]]; rewrite Heq in Hx;
      [by left|].
    apply elem_of_app in Hx as [Hx|Hx%list_elem_of_singleton]; [by left|].
    subst. right. by left.
Qed.

Lemma foldl_push_keeps arr items x :
  x ∈ items → x ∈ foldl push items arr.
Proof.
  revert items. induction arr as [|a arr IH]; intros items Hx; cbn [foldl]; [done|].
  apply IH. destruct (push_cases items a) as [[-> _]|[-> _]]; [done|].
  apply elem_of_app. by left.
Qed.

Lemma foldl_push_covers arr items x :
  x ∈ arr → ∃ y, y ∈ foldl push items arr ∧ key y = key x.
Proof.
  revert items. induction arr as [|a arr IH]; intros items Hx.
  - by apply elem_of_nil in Hx.
  - apply elem_of_cons in Hx as [->|Hx]; [|by apply IH].
    cbn [foldl]. destruct (push_cases items a) as [[-> (y & Hy & Hk)]|[-> _]].
    + exists y. split; [by apply foldl_push_keeps|done].
    + exists a. split; [|done]. apply foldl_push_keeps, elem_of_app.
      right. by left.
Qed.

Lemma foldl_push_NoDup arr items :
  NoDup (key <$> items) → NoDup (key <$> foldl push items arr).
Proof.
  revert items. induction arr as [|a arr IH]; intros items Hnd; cbn [foldl]; [done|].
  apply IH. destruct (push_cases items a) as [[-> _]|[-> Hfresh]]; [done|].
  rewrite fmap_app. apply NoDup_app. split; [done|]. split.
  - intros k (y & -> & Hy)%list_elem_of_fmap Hk.
    apply list_elem_of_singleton in Hk. by apply (Hfresh y).
  - apply NoDup_singleton.
Qed.

(** The result holds only elements of the array. *)
Lemma uniqueComplex_elem_of arr x : x ∈ uniqueComplex arr key → x ∈ arr.
Proof.
  rewrite uniqueComplex_foldl. intros [Hx|Hx]%foldl_push_elem_of; [|done].
  by apply elem_of_nil in Hx.
Qed.

(** Every key of the array is the key of an element of the result. *)
Lemma uniqueComplex_covers arr x :
  x ∈ arr → ∃ y, y ∈ uniqueComplex arr key ∧ key y = key x.
Proof. rewrite uniqueComplex_foldl. apply foldl_push_covers. Qed.

(** No two elements of the result have the same key. *)
Lemma uniqueComplex_NoDup arr : NoDup (key <$> uniqueComplex arr key).
Proof. rewrite uniqueComplex_foldl. apply foldl_push_NoDup. constructor. Qed.

(** The first element of the array is kept. *)
Lemma uniqueComplex_head a arr : a ∈ uniqueComplex (a :: arr) key.
Proof.
  rewrite uniqueComplex_foldl. cbn [foldl]. apply foldl_push_keeps.
  rewrite push_fresh; [by left|]. intros y Hy. by apply elem_of_nil in Hy.
Qed.

Lemma foldl_push_cons arr a items :
  ∃ items', foldl push (a :: items) arr = a :: items'.
Proof.
  revert items. induction arr as [|x arr IH]; intros items; cbn [foldl]; [eauto|].
  destruct (push_cases (a :: items) x) as [[-> _]|[-> _]]; [apply IH|].
  rewrite <-app_comm_cons. apply IH.
Qed.

(** The first element of the array is the first element of the result. *)
Lemma uniqueComplex_cons a arr :
  ∃ rest, uniqueComplex (a :: arr) key = a :: rest.
Proof.
  rewrite uniqueComplex_foldl. cbn [foldl].
  rewrite push_fresh; [apply foldl_push_cons|].
  intros y Hy. by apply elem_of_nil in Hy.
Qed.

(** When the key tells the elements of the array apart, nothing is lost. *)
Lemma uniqueComplex_keeps_all arr x :
  (∀ y z, y ∈ arr → z ∈ arr → key y = key z → y = z) →
  x ∈ arr → x ∈ uniqueComplex arr key.
Proof.
  intros Hinj Hx. destruct (uniqueComplex_covers arr x Hx) as (y & Hy & Hk).
  rewrite <-(Hinj y x); [done| |done..]. by apply uniqueComplex_elem_of.
Qed.

End uniqueComplex_facts.

(** ** The thread builder *)

#[global] Instance updated_le_total : Total updated_le.
Proof. intros a b. unfold updated_le. lia. Qed.

#[global] Instance updated_le_trans : Transitive updated_le.
Proof. intros a b c. unfold updated_le. lia. Qed.

Lemma Forall2_elem_of_r {A B} (P : A → B → Prop) l k y :
  Forall2 P l k → y ∈ k → ∃ x, x ∈ l ∧ P x y.
Proof.
  induction 1 as [|x y' l k HP _ IH]; intros Hy.
  - by apply elem_of_nil in Hy.
  - apply elem_of_cons in Hy as [->|Hy].
    + exists x. split; [by left|done].
    + destruct (IH Hy) as (x' & Hx' & HP'). exists x'. split; [by right|done].
Qed.

Lemma Forall2_elem_of_l {A B} (P : A → B → Prop) l k x :
  Forall2 P l k → x ∈ l → ∃ y, y ∈ k ∧ P x y.
Proof.
  induction 1 as [|x' y l k HP _ IH]; intros Hx.
  - by apply elem_of_nil in Hx.
  - apply elem_of_cons in Hx as [->|Hx].
    + exists y. split; [by left|done].
    + destruct (IH Hx) as (y' & Hy' & HP'). exists y'. split; [by right|done].
Qed.

Lemma elem_of_concat {A} (ls : list (list A)) x :
  x ∈ concat ls ↔ ∃ l, l ∈ ls ∧ x ∈ l.
Proof.
  rewrite list_elem_of_In, in_concat. split.
  - intros (l & Hl & Hx). exists l. by rewrite !list_elem_of_In.
  - intros (l & Hl & Hx). exists l. by rewrite <-!list_elem_of_In.
Qed.

Section builder_facts.
Import DocumentCommentManager.
Context (all : list GerritCommentBase).

Lemma elem_of_directReplies c x : x ∈ directReplies c all ↔ repliesTo all c x.
Proof. unfold directReplies, repliesTo. rewrite list_elem_of_filter. tauto. Qed.

Lemma elem_of_rootsOf r : r ∈ rootsOf all ↔ r ∈ all ∧ isRoot r.
Proof. unfold rootsOf, isRoot. rewrite list_elem_of_filter. tauto. Qed.

Lemma getAllRepliesTo_S fuel c :
  _getAllRepliesTo (S fuel) c all =
    nested ← mapM (λ reply, _getAllRepliesTo fuel reply all) (directReplies c all);
    Some (uniqueComplex (c :: directReplies c all ++ concat nested) Comment.id).
Proof. reflexivity. Qed.

Lemma getAllRepliesTo_Some fuel c t :
  _getAllRepliesTo fuel c all = Some t ↔
  ∃ fuel' nested,
    fuel = S fuel' ∧
    Forall2 (λ r n, _getAllRepliesTo fuel' r all = Some n) (directReplies c all) nested ∧
    t = uniqueComplex (c :: directReplies c all ++ concat nested) Comment.id.
Proof.
  split.
  - destruct fuel as [|fuel']; [done|]. rewrite getAllRepliesTo_S.
    destruct (mapM _ _) as [nested|] eqn:Hm; [|done]. intros [= <-].
    exists fuel', nested. by apply mapM_Some_1 in Hm.
  - intros (fuel' & nested & -> & Hn & ->). rewrite getAllRepliesTo_S.
    apply mapM_Some_2 in Hn. by rewrite Hn.
Qed.

(** More fuel does not change a result. *)
Lemma getAllRepliesTo_mono fuel fuel' c t :
  (fuel ≤ fuel')%nat →
  _getAllRepliesTo fuel c all = Some t → _getAllRepliesTo fuel' c all = Some t.
Proof.
  revert fuel' c t. induction fuel as [|fuel IH]; intros fuel' c t Hle Ht; [done|].
  destruct fuel' as [|fuel']; [lia|].
  apply getAllRepliesTo_Some in Ht as (f & nested & [= <-] & Hn & ->).
  apply getAllRepliesTo_Some. exists fuel', nested. split; [done|]. split; [|done].
  eapply Forall2_impl; [exact Hn|]. intros r n Hr. apply IH; [lia|done].
Qed.

Lemma getAllRepliesTo_det fuel1 fuel2 c t1 t2 :
  _getAllRepliesTo fuel1 c all = Some t1 →
  _getAllRepliesTo fuel2 c all = Some t2 → t1 = t2.
Proof.
  intros H1 H2.
  apply (getAllRepliesTo_mono _ (fuel1 `max` fuel2)) in H1; [|lia].
  apply (getAllRepliesTo_mono _ (fuel1 `max` fuel2)) in H2; [|lia].
  congruence.
Qed.

(** A thread starts from its root and holds only what the replies reach. *)
Lemma getAllRepliesTo_root fuel c t :
  _getAllRepliesTo fuel c all = Some t → c ∈ t.
Proof.
  intros (f & nested & _ & _ & ->)%getAllRepliesTo_Some. apply uniqueComplex_head.
Qed.

Lemma getAllRepliesTo_sound fuel c t x :
  _getAllRepliesTo fuel c all = Some t → x ∈ t → reaches all c x.
Proof.
  revert c t x. induction fuel as [|fuel IH]; intros c t x Ht Hx; [done|].
  apply getAllRepliesTo_Some in Ht as (f & nested & [= <-] & Hn & ->).
  apply uniqueComplex_elem_of in Hx.
  apply elem_of_cons in Hx as [->|Hx]; [apply rtc_refl|].
  apply elem_of_app in Hx as [Hx|Hx].
  - apply rtc_once. by apply elem_of_directReplies.
  - apply elem_of_concat in Hx as (n & Hnin & Hx).
    destruct (Forall2_elem_of_r _ _ _ _ Hn Hnin) as (r & Hr & Hrn).
    eapply rtc_l; [by apply elem_of_directReplies|]. by eapply IH.
Qed.

(** Everything the replies reach is in the thread, up to the id. *)
Lemma getAllRepliesTo_complete fuel c t x :
  _getAllRepliesTo fuel c all = Some t → reaches all c x →
  ∃ y, y ∈ t ∧ Comment.id y = Comment.id x.
Proof.
  revert c t. induction fuel as [|fuel IH]; intros c t Ht Hx; [done|].
  apply getAllRepliesTo_Some in Ht as (f & nested & [= <-] & Hn & ->).
  apply rtc_inv in Hx as [->|(d & Hd & Hx)].
  { apply uniqueComplex_covers. by left. }
  apply elem_of_directReplies in Hd.
  destruct (Forall2_elem_of_l _ _ _ _ Hn Hd) as (n & Hnin & Hdn).
  destruct (IH d n Hdn Hx) as (y & Hy & Hk).
  assert (y ∈ c :: directReplies c all ++ concat nested) as Hy'.
  { right. apply elem_of_app. right. apply elem_of_concat. eauto. }
  destruct (uniqueComplex_covers Comment.id _ _ Hy') as (z & Hz & Hkz).
  exists z. split; [done|congruence].
Qed.

Lemma getAllRepliesTo_NoDup fuel c t :
  _getAllRepliesTo fuel c all = Some t → NoDup (Comment.id <$> t).
Proof.
  intros (f & nested & _ & _ & ->)%getAllRepliesTo_Some. apply uniqueComplex_NoDup.
Qed.

Lemma buildThreads_Some fuel threads :
  _buildThreadsFromComments fuel all = Some threads ↔
  ∃ ts, Forall2 (λ r t, _getAllRepliesTo fuel r all = Some t) (rootsOf all) ts ∧
        threads = sortByDate <$> ts.
Proof.
  unfold _buildThreadsFromComments. fold (rootsOf all). split.
  - destruct (mapM _ _) as [ts|] eqn:Hm; [|done]. intros [= <-].
    exists ts. by apply mapM_Some_1 in Hm.
  - intros (ts & Hts & ->). apply mapM_Some_2 in Hts. by rewrite Hts.
Qed.

Lemma buildThreads_mono fuel fuel' threads :
  (fuel ≤ fuel')%nat →
  _buildThreadsFromComments fuel all = Some threads →
  _buildThreadsFromComments fuel' all = Some threads.
Proof.
  intros Hle (ts & Hts & ->)%buildThreads_Some. apply buildThreads_Some.
  exists ts. split; [|done]. eapply Forall2_impl; [exact Hts|].
  intros r t. by apply getAllRepliesTo_mono.
Qed.

Lemma elem_of_sortByDate t x : x ∈ sortByDate t ↔ x ∈ t.
Proof. unfold sortByDate. by rewrite stable_sort_Permutation. Qed.

(** A thread starts with its root when no comment the replies reach was
    updated before the root. *)
Lemma sortByDate_head_root fuel r t :
  _getAllRepliesTo fuel r all = Some t →
  (∀ x, reaches all r x → updated_le r x) →
  head (sortByDate t) = Some r.
Proof.
  intros Ht Hle.
  assert (∀ x, x ∈ t → updated_le r x) as Hall
    by (intros x Hx; by eapply Hle, getAllRepliesTo_sound).
  apply getAllRepliesTo_Some in Ht as (f & nested & _ & _ & Heq).
  destruct (uniqueComplex_cons Comment.id r (directReplies r all ++ concat nested))
    as [rest Hrest].
  rewrite Hrest in Heq. subst t. unfold sortByDate.
  rewrite stable_sort_cons_least; [done|].
  apply Forall_forall. intros x Hx. apply Hall. by right.
Qed.

(** C3: every thread the builder produces is sorted by [updated] in
    ascending order (each comment is no later than all that follow it) and
    holds no two comments with the same id, whatever the input (duplicate
    ids, several reply paths to one comment); and a run of the builder on
    the same input produces the same threads in the same order. *)
Theorem C3_threads_sorted_deduplicated_deterministic
    (fuel : nat) (threads : list (list GerritCommentBase)) :
  _buildThreadsFromComments fuel all = Some threads →
  Forall (λ t, StronglySorted updated_le t ∧ NoDup (Comment.id <$> t)) threads ∧
  ∀ fuel' threads',
    _buildThreadsFromComments fuel' all = Some threads' → threads' = threads.
Proof.
  intros Hb. split.
  - apply buildThreads_Some in Hb as (ts & Hts & ->).
    apply Forall_fmap, Forall_forall. intros t Ht.
    destruct (Forall2_elem_of_r _ _ _ _ Hts Ht) as (r & _ & Hr). split.
    + apply StronglySorted_stable_sort; apply _.
    + unfold sortByDate. rewrite stable_sort_Permutation.
      by eapply getAllRepliesTo_NoDup.
  - intros fuel' threads' Hb'.
    apply (buildThreads_mono _ (fuel `max` fuel')) in Hb; [|lia].
    apply (buildThreads_mono _ (fuel `max` fuel')) in Hb'; [|lia].
    congruence.
Qed.

End builder_facts.

(** ** Termination of the thread builder *)

Section termination_facts.
Import DocumentCommentManager.
Context (all : list GerritCommentBase).

Lemma replyChain_elem_of l x : replyChain all l → x ∈ l → x ∈ all.
Proof.
  induction 1 as [r Hr _|c d l _ IH [Hc _]]; intros Hx.
  - by apply list_elem_of_singleton in Hx as ->.
  - apply elem_of_cons in Hx as [->|Hx]; [done|by apply IH].
Qed.

Lemma getAllRepliesTo_is_Some_S fuel c :
  is_Some (_getAllRepliesTo (S fuel) c all) ↔
  ∀ d, repliesTo all c d → is_Some (_getAllRepliesTo fuel d all).
Proof.
  rewrite getAllRepliesTo_S. split.
  - intros [t Ht] d Hd%elem_of_directReplies.
    destruct (mapM _ _) as [nested|] eqn:Hm; [|done].
    apply mapM_Some_1 in Hm.
    destruct (Forall2_elem_of_l _ _ _ _ Hm Hd) as (n & _ & Hn). eauto.
  - intros Hall.
    assert (is_Some (mapM (λ reply, _getAllRepliesTo fuel reply all)
                          (directReplies c all))) as [nested ->]; [|by eexists].
    apply mapM_is_Some_2, Forall_forall. intros d Hd. simpl.
    by apply Hall, elem_of_directReplies.
Qed.

(** With the roots' threads built at depth [fuel], a chain of replies from a
    root has at most [fuel] comments. *)
Lemma replyChain_within_fuel fuel l :
  (∀ r, r ∈ rootsOf all → is_Some (_getAllRepliesTo fuel r all)) →
  replyChain all l →
  ∃ c l' k, l = c :: l' ∧ (k + length l' = fuel)%nat ∧
            is_Some (_getAllRepliesTo k c all).
Proof.
  intros Hroots. induction 1 as [r Hr Hroot|c d l _ IH Hcd].
  - exists r, [], fuel. split; [done|]. split; [simpl; lia|].
    by apply Hroots, elem_of_rootsOf.
  - destruct IH as (d' & l' & k & [= <- <-] & Hk & Hsome).
    destruct k as [|k]; [by destruct Hsome|].
    exists c, (d :: l), k. split; [done|]. split; [simpl; lia|].
    by eapply getAllRepliesTo_is_Some_S.
Qed.

(** With every chain of replies from a root bounded by [N], depth [N]
    suffices below every chain. *)
Lemma getAllRepliesTo_below_chain N :
  (∀ l, replyChain all l → (length l ≤ N)%nat) →
  ∀ k c l', replyChain all (c :: l') → (N ≤ k + length l')%nat →
            is_Some (_getAllRepliesTo k c all).
Proof.
  intros Hbound. induction k as [|k IH]; intros c l' Hchain Hk.
  - apply Hbound in Hchain. simpl in *. lia.
  - apply getAllRepliesTo_is_Some_S. intros d Hd.
    apply (IH d (c :: l')); [by constructor|simpl; lia].
Qed.

Lemma buildThreads_is_Some fuel :
  is_Some (_buildThreadsFromComments fuel all) ↔
  ∀ r, r ∈ rootsOf all → is_Some (_getAllRepliesTo fuel r all).
Proof.
  unfold _buildThreadsFromComments. fold (rootsOf all). split.
  - intros [threads Ht] r Hr.
    destruct (mapM _ _) as [ts|] eqn:Hm; [|done]. apply mapM_Some_1 in Hm.
    destruct (Forall2_elem_of_l _ _ _ _ Hm Hr) as (t & _ & Hrt). eauto.
  - intros Hall.
    assert (is_Some (mapM (λ c, _getAllRepliesTo fuel c all) (rootsOf all)))
      as [ts ->]; [|by eexists].
    apply mapM_is_Some_2, Forall_forall. intros r Hr. by apply Hall.
Qed.

Lemma buildThreads_of_bounded_chains N :
  (∀ l, replyChain all l → (length l ≤ N)%nat) →
  is_Some (_buildThreadsFromComments N all).
Proof.
  intros Hbound. apply buildThreads_is_Some. intros r [Hr Hroot]%elem_of_rootsOf.
  apply (getAllRepliesTo_below_chain N Hbound N r []); [by constructor|lia].
Qed.

Lemma buildThreads_total_iff_bounded_chains :
  (∃ fuel threads, ∀ fuel', (fuel ≤ fuel')%nat →
       _buildThreadsFromComments fuel' all = Some threads) ↔
  (∃ N, ∀ l, replyChain all l → (length l ≤ N)%nat).
Proof.
  split.
  - intros (fuel & threads & Hb). exists fuel. intros l Hl.
    assert (is_Some (_buildThreadsFromComments fuel all)) as Hsome
      by (rewrite (Hb fuel); [by eexists|lia]).
    destruct (replyChain_within_fuel fuel l (proj1 (buildThreads_is_Some fuel) Hsome) Hl)
      as (c & l' & k & -> & Hk & Hc).
    destruct k as [|k]; [by destruct Hc|]. simpl. lia.
  - intros (N & Hbound).
    destruct (buildThreads_of_bounded_chains N Hbound) as [threads Ht].
    exists N, threads. intros fuel' Hle. by eapply buildThreads_mono.
Qed.

End termination_facts.


(** ** Threads and the reply graph, for distinct non-empty ids *)

Lemma NoDup_fmap_elem_inj {A B} (f : A → B) (l : list A) x y :
  NoDup (f <$> l) → x ∈ l → y ∈ l → f x = f y → x = y.
Proof.
  induction l as [|a l IH]; intros Hnd Hx Hy Heq.
  - by apply elem_of_nil in Hx.
  - rewrite fmap_cons in Hnd. apply NoDup_cons in Hnd as [Ha Hl].
    apply elem_of_cons in Hx as [->|Hx]; apply elem_of_cons in Hy as [->|Hy].
    + done.
    + exfalso. apply Ha. rewrite Heq. by apply list_elem_of_fmap_2.
    + exfalso. apply Ha. rewrite <-Heq. by apply list_elem_of_fmap_2.
    + by apply IH.
Qed.

Section distinct_ids.
Import DocumentCommentManager.
Context (all : list GerritCommentBase).
Hypothesis ids_distinct : NoDup (Comment.id <$> all).
Hypothesis ids_nonempty : Forall (λ c, Comment.id c ≠ "") all.

Lemma id_inj x y :
  x ∈ all → y ∈ all → Comment.id x = Comment.id y → x = y.
Proof using ids_distinct. by apply NoDup_fmap_elem_inj. Qed.

Lemma root_has_no_parent r d :
  isRoot r → d ∈ all → Comment.inReplyTo r ≠ Some (Comment.id d).
Proof using ids_nonempty.
  intros [Hr|Hr] Hd Heq; rewrite Hr in Heq; [done|].
  injection Heq as Heq. rewrite Forall_forall in ids_nonempty.
  by apply (ids_nonempty d Hd).
Qed.

Lemma reaches_elem_of r x : r ∈ all → reaches all r x → x ∈ all.
Proof.
  intros Hr [->|(y & _ & [Hx _])]%rtc_inv_r; done.
Qed.

(** The replies lead to a comment from one root only. *)
Lemma ultimateRoot_unique c r r' :
  ultimateRoot all c r → ultimateRoot all c r' → r = r'.
Proof using ids_distinct ids_nonempty.
  intros (Hr & Hroot & Hreach). revert r'. unfold ultimateRoot, reaches in *.
  revert c Hreach.
  refine (rtc_ind_r (λ c, ∀ r', _ → r = r') r _ _).
  - intros r' (Hr' & Hroot' & Hreach').
    apply rtc_inv_r in Hreach' as [->|(y & Hy & [_ Hp])]; [done|].
    exfalso. eapply (root_has_no_parent r y); [done| |done].
    by apply (reaches_elem_of r').
  - intros y z Hry [Hz Hzy] IH r' (Hr' & Hroot' & Hreach').
    apply rtc_inv_r in Hreach' as [->|(y' & Hy' & [_ Hzy'])].
    + exfalso. eapply (root_has_no_parent z y); [done| |done].
      by apply (reaches_elem_of r).
    + apply IH. split; [done|]. split; [done|].
      rewrite (id_inj y y'); [done| | |congruence].
      * by apply (reaches_elem_of r).
      * by apply (reaches_elem_of r').
Qed.

(** Along a chain, each comment replies to the next one, and the last one
    is a root. *)
Lemma replyChain_next l l1 x l2 :
  replyChain all l → l = l1 ++ x :: l2 →
  match l2 with
  | [] => isRoot x
  | y :: _ => Comment.inReplyTo x = Some (Comment.id y)
  end.
Proof.
  intros Hl. revert l1. induction Hl as [r Hr Hroot|c d l _ IH [_ Hcd]]; intros l1 Heq.
  - destruct l1 as [|? [|? ?]]; simplify_eq/=. done.
  - destruct l1 as [|c' l1]; simplify_eq/=; [done|]. by apply (IH l1).
Qed.

Lemma replyChain_NoDup l : replyChain all l → NoDup l.
Proof using ids_distinct ids_nonempty.
  induction 1 as [r Hr Hroot|c d l Hl IH [Hc Hcd]].
  - apply NoDup_singleton.
  - apply NoDup_cons. split; [|done]. intros Hin.
    assert (d ∈ all) as Hd by (eapply replyChain_elem_of; [done|by left]).
    apply list_elem_of_split in Hin as (l1 & l2 & Heq).
    pose proof (replyChain_next _ _ _ _ Hl Heq) as Hnext.
    destruct l2 as [|y l2].
    { by eapply (root_has_no_parent c d). }
    assert (y = d) as ->.
    { apply id_inj; [|done|congruence].
      eapply replyChain_elem_of; [done|]. rewrite Heq.
      apply elem_of_app. right. right. by left. }
    apply NoDup_cons in IH as [Hnotin _].
    destruct l1 as [|d' l1]; simplify_eq/=.
    + apply Hnotin. by left.
    + apply Hnotin, elem_of_app. right. right. by left.
Qed.

Lemma replyChain_bounded l : replyChain all l → (length l ≤ length all)%nat.
Proof using ids_distinct ids_nonempty.
  intros Hl. apply submseteq_length, NoDup_submseteq.
  - by apply replyChain_NoDup.
  - intros x Hx. by eapply replyChain_elem_of.
Qed.

(** A thread holds exactly what the replies reach from its root. *)
Lemma elem_of_thread fuel r t x :
  r ∈ all → _getAllRepliesTo fuel r all = Some t →
  x ∈ t ↔ reaches all r x.
Proof using ids_distinct.
  intros Hr Ht. split; [by eapply getAllRepliesTo_sound|]. intros Hx.
  destruct (getAllRepliesTo_complete all fuel r t x Ht Hx) as (y & Hy & Hid).
  rewrite <-(id_inj y x); [done| | |done].
  - eapply reaches_elem_of; [done|]. by eapply getAllRepliesTo_sound.
  - by eapply reaches_elem_of.
Qed.

Lemma rootsOf_NoDup : NoDup (rootsOf all).
Proof using ids_distinct.
  apply NoDup_filter. by eapply NoDup_fmap_1.
Qed.

(** A comment the replies reach from a root is in the thread of that root
    and in no other thread. *)
Lemma ultimateRoot_inOneThread fuel threads c r :
  _buildThreadsFromComments fuel all = Some threads →
  ultimateRoot all c r → inOneThreadWith c r threads.
Proof using ids_distinct ids_nonempty.
  intros (ts & Hts & ->)%buildThreads_Some Hcr.
  pose proof Hcr as (Hr & Hroot & Hreach).
  assert (r ∈ rootsOf all) as Hin by (by apply elem_of_rootsOf).
  apply list_elem_of_split in Hin as (R1 & R2 & Heq).
  pose proof rootsOf_NoDup as Hnd. rewrite Heq in Hnd, Hts.
  apply Forall2_app_inv_l in Hts as (T1 & T' & H1 & H2 & ->).
  apply Forall2_cons_inv_l in H2 as (t & T2 & Ht & H2 & ->).
  exists (sortByDate <$> T1), (sortByDate t), (sortByDate <$> T2).
  split; [by rewrite fmap_app, fmap_cons|].
  split; [by rewrite elem_of_sortByDate, (elem_of_thread fuel r)|].
  split; [rewrite elem_of_sortByDate, (elem_of_thread fuel r) by done; apply rtc_refl|].
  intros t' Ht' Hc. rewrite <-fmap_app in Ht'.
  apply list_elem_of_fmap in Ht' as (t0 & -> & Ht0).
  rewrite elem_of_sortByDate in Hc.
  assert (∃ r0, r0 ∈ R1 ++ R2 ∧ _getAllRepliesTo fuel r0 all = Some t0)
    as (r0 & Hr0 & Hrt0).
  { apply elem_of_app in Ht0 as [Ht0|Ht0].
    - destruct (Forall2_elem_of_r _ _ _ _ H1 Ht0) as (r0 & ? & ?).
      exists r0. split; [apply elem_of_app; by left|done].
    - destruct (Forall2_elem_of_r _ _ _ _ H2 Ht0) as (r0 & ? & ?).
      exists r0. split; [apply elem_of_app; by right|done]. }
  assert (r0 ∈ rootsOf all) as [Hr0all Hr0root]%elem_of_rootsOf.
  { rewrite Heq. apply elem_of_app.
    apply elem_of_app in Hr0 as [?|?]; [by left|right; by right]. }
  assert (r = r0) as <-.
  { apply (ultimateRoot_unique c); [done|]. split; [done|]. split; [done|].
    exact (getAllRepliesTo_sound all fuel r0 t0 c Hrt0 Hc). }
  apply NoDup_app in Hnd as (_ & Hdisj & Hnd2).
  apply NoDup_cons in Hnd2 as [Hr2 _].
  apply elem_of_app in Hr0 as [Hr0|Hr0]; [|done].
  apply (Hdisj r Hr0). by left.
Qed.

(** C2 (amended): for a list of comments with pairwise distinct, non-empty
    ids the builder ends, at every sufficient depth of the call stack, with
    one list of threads, in which
    - every root of the list is in exactly one thread;
    - every comment of the list to which the replies lead from a root is in
      the thread of that root and in no other thread;
    - a comment of the list is in no thread exactly when the replies lead
      to it from no root (its chain of [inReplyTo] ids meets an id that is
      not in the list, or runs in a cycle). *)
Theorem C2_threads_follow_reply_chains :
  ∃ fuel threads,
    (∀ fuel', (fuel ≤ fuel')%nat →
       _buildThreadsFromComments fuel' all = Some threads) ∧
    (∀ c, c ∈ all → isRoot c → inOneThreadWith c c threads) ∧
    (∀ c r, c ∈ all → ultimateRoot all c r → inOneThreadWith c r threads) ∧
    (∀ c, c ∈ all → omitted c threads ↔ ¬ ∃ r, ultimateRoot all c r).
Proof using ids_distinct ids_nonempty.
  destruct (buildThreads_of_bounded_chains all (length all) replyChain_bounded)
    as [threads Hb].
  exists (length all), threads.
  split; [intros fuel' Hle; by eapply buildThreads_mono|]. split; [|split].
  - intros c Hc Hroot. eapply ultimateRoot_inOneThread; [done|].
    split; [done|]. split; [done|apply rtc_refl].
  - intros c r _ Hcr. by eapply ultimateRoot_inOneThread.
  - intros c Hc. split.
    + intros Hom (r & Hcr).
      destruct (ultimateRoot_inOneThread _ _ _ _ Hb Hcr) as (l1 & t & l2 & -> & Hct & _).
      apply (Hom t); [|done]. apply elem_of_app. right. by left.
    + intros Hno t Ht Hct.
      apply buildThreads_Some in Hb as (ts & Hts & ->).
      apply list_elem_of_fmap in Ht as (t0 & -> & Ht0).
      rewrite elem_of_sortByDate in Hct.
      destruct (Forall2_elem_of_r _ _ _ _ Hts Ht0) as (r & [Hr Hroot]%elem_of_rootsOf & Hrt).
      apply Hno. exists r. split; [done|]. split; [done|].
      by eapply getAllRepliesTo_sound.
Qed.

End distinct_ids.

(** C4 (amended): the build ends with a result, at every sufficient depth
    of the call stack, exactly when the chains of replies that descend from
    the roots of the input are bounded in length, that is, when no cycle of
    replies can be reached from a root; orphaned replies, cycles that no
    root reaches and duplicate ids outside such a cycle do not matter.  In
    particular it ends for every list with pairwise distinct, non-empty
    ids.  Whenever it ends, the result has exactly one thread for each root
    of the input, and a comment to which the replies lead from no root (an
    orphaned reply, a comment on a cycle that no root reaches) is in no
    thread. *)
Theorem C4_build_total_iff_no_cycle_below_a_root (all : list GerritCommentBase) :
  ((∃ fuel threads, ∀ fuel', (fuel ≤ fuel')%nat →
        DocumentCommentManager._buildThreadsFromComments fuel' all = Some threads) ↔
   (∃ N, ∀ l, replyChain all l → (length l ≤ N)%nat)) ∧
  (NoDup (Comment.id <$> all) → Forall (λ c, Comment.id c ≠ "") all →
   ∃ fuel threads, ∀ fuel', (fuel ≤ fuel')%nat →
        DocumentCommentManager._buildThreadsFromComments fuel' all = Some threads) ∧
  (∀ fuel threads,
     DocumentCommentManager._buildThreadsFromComments fuel all = Some threads →
     length threads = length (rootsOf all) ∧
     ∀ c, (¬ ∃ r, ultimateRoot all c r) → omitted c threads).
Proof.
  split; [apply buildThreads_total_iff_bounded_chains|]. split.
  - intros Hnd Hne. apply buildThreads_total_iff_bounded_chains.
    exists (length all). by apply replyChain_bounded.
  - intros fuel threads (ts & Hts & ->)%buildThreads_Some. split.
    + rewrite length_fmap. symmetry. by eapply Forall2_length.
    + intros c Hno t Ht Hct.
      apply list_elem_of_fmap in Ht as (t0 & -> & Ht0).
      rewrite elem_of_sortByDate in Hct.
      destruct (Forall2_elem_of_r _ _ _ _ Hts Ht0)
        as (r & [Hr Hroot]%elem_of_rootsOf & Hrt).
      apply Hno. exists r. split; [done|]. split; [done|].
      by eapply getAllRepliesTo_sound.
Qed.

(** C4, as stated, fails: with two comments of id ["1"], a root and a reply
    to ["1"], the recursion from the root never ends, whatever the depth. *)
Lemma C4_cycle_counterexample :
  ¬ ∃ fuel threads,
      DocumentCommentManager._buildThreadsFromComments fuel [Sample.c1; Sample.loop]
        = Some threads.
Proof.
  assert (∀ fuel, DocumentCommentManager._getAllRepliesTo
                    fuel Sample.loop [Sample.c1; Sample.loop] = None) as Hloop.
  { induction fuel as [|fuel IH]; [done|].
    rewrite getAllRepliesTo_S.
    change (directReplies Sample.loop [Sample.c1; Sample.loop]) with [Sample.loop].
    simpl. by rewrite IH. }
  intros (fuel & threads & Hb). revert Hb.
  unfold DocumentCommentManager._buildThreadsFromComments.
  change (filter _ [Sample.c1; Sample.loop]) with [Sample.c1]. simpl.
  destruct fuel as [|fuel]; [done|].
  rewrite getAllRepliesTo_S.
  change (directReplies Sample.c1 [Sample.c1; Sample.loop]) with [Sample.loop].
  simpl. by rewrite Hloop.
Qed.

(** ** The builder on concrete inputs *)

Section builder_examples.
Import DocumentCommentManager Sample.

Example build_chain_with_orphan :
  _buildThreadsFromComments 4 [c3; orphan; c1; c2] = Some [[c1; c2; c3]].
Proof. reflexivity. Qed.

Example build_two_roots :
  _buildThreadsFromComments 3 [e2; c2; e1; c1] = Some [[e1; e2]; [c1; c2]].
Proof. reflexivity. Qed.

Lemma C2_threads_follow_reply_chains_witness :
  NoDup (Comment.id <$> [c3; orphan; c1; c2]) ∧
  Forall (λ c, Comment.id c ≠ "") [c3; orphan; c1; c2] ∧
  ∃ fuel threads,
    (∀ fuel', (fuel ≤ fuel')%nat →
       _buildThreadsFromComments fuel' [c3; orphan; c1; c2] = Some threads) ∧
    (∀ c, c ∈ [c3; orphan; c1; c2] → isRoot c → inOneThreadWith c c threads) ∧
    (∀ c r, c ∈ [c3; orphan; c1; c2] → ultimateRoot [c3; orphan; c1; c2] c r →
            inOneThreadWith c r threads) ∧
    (∀ c, c ∈ [c3; orphan; c1; c2] →
          omitted c threads ↔ ¬ ∃ r, ultimateRoot [c3; orphan; c1; c2] c r).
Proof.
  assert (H1 : NoDup (Comment.id <$> [c3; orphan; c1; c2])).
  { apply (bool_decide_unpack _). vm_compute. exact I. }
  assert (H2 : Forall (λ c, Comment.id c ≠ "") [c3; orphan; c1; c2]).
  { apply (bool_decide_unpack _). vm_compute. exact I. }
  split; [exact H1|]. split; [exact H2|].
  exact (C2_threads_follow_reply_chains [c3; orphan; c1; c2] H1 H2).
Defined.

Lemma C4_build_total_iff_no_cycle_below_a_root_witness :
  NoDup (Comment.id <$> [c3; orphan; c1; c2]) ∧
  Forall (λ c, Comment.id c ≠ "") [c3; orphan; c1; c2] ∧
  ∃ fuel threads, ∀ fuel', (fuel ≤ fuel')%nat →
    _buildThreadsFromComments fuel' [c3; orphan; c1; c2] = Some threads.
Proof.
  assert (H1 : NoDup (Comment.id <$> [c3; orphan; c1; c2])).
  { apply (bool_decide_unpack _). vm_compute. exact I. }
  assert (H2 : Forall (λ c, Comment.id c ≠ "") [c3; orphan; c1; c2]).
  { apply (bool_decide_unpack _). vm_compute. exact I. }
  split; [exact H1|]. split; [exact H2|].
  exact (proj1 (proj2 (C4_build_total_iff_no_cycle_below_a_root [c3; orphan; c1; c2]))
           H1 H2).
Defined.

Example build_duplicate_ids :
  _buildThreadsFromComments 4 [c1; d2; d2'; d3] = Some [[d3; d2; c1]].
Proof. reflexivity. Qed.

Lemma C3_threads_sorted_deduplicated_deterministic_witness :
  _buildThreadsFromComments 4 [c1; d2; d2'; d3] = Some [[d3; d2; c1]] ∧
  Forall (λ t, StronglySorted updated_le t ∧ NoDup (Comment.id <$> t)) [[d3; d2; c1]] ∧
  ∀ fuel' threads',
    _buildThreadsFromComments fuel' [c1; d2; d2'; d3] = Some threads' →
    threads' = [[d3; d2; c1]].
Proof.
  split; [reflexivity|].
  exact (C3_threads_sorted_deduplicated_deterministic
           [c1; d2; d2'; d3] 4 [[d3; d2; c1]] eq_refl).
Defined.

(** C2, as stated, fails in three ways.  With two comments of one id, the
    second one ([d2']) replies to a root of the list and is in no thread.
    With distinct ids, a comment that replies to its own id is in no thread
    although every id on its chain is in the list.  With an empty id in the
    list, a comment whose [inReplyTo] is the empty string is a root for the
    builder and also a reply: it is in two threads. *)
Lemma C2_counterexample :
  (_buildThreadsFromComments 4 [c1; d2; d2'] = Some [[d2; c1]] ∧
   d2' ∈ [c1; d2; d2'] ∧ ultimateRoot [c1; d2; d2'] d2' c1 ∧
   omitted d2' [[d2; c1]] ∧ ¬ chainBroken [c1; d2; d2'] d2') ∧
  (_buildThreadsFromComments 4 [loop] = Some [] ∧
   NoDup (Comment.id <$> [loop]) ∧ ¬ isRoot loop ∧
   omitted loop [] ∧ ¬ chainBroken [loop] loop) ∧
  (_buildThreadsFromComments 4 [emptyId; emptyReply]
     = Some [[emptyId; emptyReply]; [emptyReply]] ∧
   NoDup (Comment.id <$> [emptyId; emptyReply]) ∧ isRoot emptyReply ∧
   emptyReply ∈ [emptyId; emptyReply] ∧ emptyReply ∈ [emptyReply]).
Proof.
  split; [|split]; [| |
    split; [reflexivity|]; split; [by apply (bool_decide_unpack _)|];
    split; [by right|]; split; [by right; left|by left]].
  - split; [reflexivity|]. split; [set_solver|]. split; [|split].
    + split; [set_solver|]. split; [by left|].
      apply rtc_once. split; [set_solver|done].
    + intros t ->%list_elem_of_singleton Hin.
      apply elem_of_cons in Hin as [?|Hin]; [done|].
      by apply list_elem_of_singleton in Hin.
    + intros Hb. inversion Hb as [c p Hp Hnot|c d Hd Hp Hd']; subst; simpl in Hp.
      * injection Hp as <-. apply Hnot. set_solver.
      * simpl in Hp. assert (d = c1) as ->.
        { repeat (apply elem_of_cons in Hd as [->|Hd]; [done|]).
          by apply elem_of_nil in Hd. }
        inversion Hd'; done.
  - split; [reflexivity|]. split; [apply NoDup_singleton|]. split; [|split].
    + intros [?|?]; done.
    + intros t Ht. by apply elem_of_nil in Ht.
    + assert (∀ x, chainBroken [loop] x → x ≠ loop) as Hno; [|by intros ?%Hno].
      induction 1 as [c p Hp Hnot|c d Hd Hp _ IH]; intros ->; simpl in Hp.
      * injection Hp as <-. apply Hnot. set_solver.
      * apply IH. by apply list_elem_of_singleton in Hd.
Qed.

End builder_examples.

(** ** The registry: [loadComments] *)

Section registry_facts.
Import DocumentCommentManager.
Context (truthy_side : GerritCommentSide → bool).
Context (gerritRangeToVSCodeRange : GerritCommentRange → Completion vscode.Range).
Context (tryGetFileMeta : vscode.Uri → option FileMeta).
Context (GerritCommentThread_from : vscode.CommentThread → option GerritCommentThread).

Local Abbreviation getCommentRange' := (getCommentRange gerritRangeToVSCodeRange).
Local Abbreviation threadLine' := (threadLine gerritRangeToVSCodeRange).
Local Abbreviation countThread' := (countThread gerritRangeToVSCodeRange).
Local Abbreviation hasAnchor' := (hasAnchor gerritRangeToVSCodeRange).
Local Abbreviation rangeDefined' := (rangeDefined gerritRangeToVSCodeRange).
Local Abbreviation createCommentThread' :=
  (createCommentThread gerritRangeToVSCodeRange GerritCommentThread_from).
Local Abbreviation registerThread' :=
  (registerThread gerritRangeToVSCodeRange GerritCommentThread_from).
Local Abbreviation loadedThreads' := (loadedThreads truthy_side).
Local Abbreviation loadComments' :=
  (loadComments truthy_side gerritRangeToVSCodeRange tryGetFileMeta
                GerritCommentThread_from).

Lemma getCommentRange_no_anchor c :
  Comment.range c = None → Comment.line c = None →
  getCommentRange' c = Normal None.
Proof. unfold getCommentRange. by intros -> ->. Qed.

(** [new Position] throws for the line before a negative line. *)
Lemma getCommentRange_negative_line c l :
  Comment.range c = None → Comment.line c = Some l → l < 0 →
  getCommentRange' c = Throw.
Proof.
  unfold getCommentRange. intros -> -> Hl.
  rewrite decide_False by lia. unfold vscode.newPosition.
  by rewrite decide_True by lia.
Qed.

Lemma threadLine_nonempty t :
  t ≠ [] → rangeDefined' t → ∃ line, threadLine' t = Normal line.
Proof.
  destruct t as [|c0 t]; [done|]. intros _. unfold rangeDefined, threadLine. simpl.
  destruct (getCommentRange' c0) as [[r|]|]; [eauto..|done].
Qed.

Lemma for_of_app {S A} (body : A → S → Completion unit * S) l1 l2 s :
  for_of body (l1 ++ l2) s =
    match for_of body l1 s with
    | (Normal _, s') => for_of body l2 s'
    | (Throw, s') => (Throw, s')
    end.
Proof.
  revert s. induction l1 as [|x l1 IH]; intros s; simpl; [done|].
  destruct (body x s) as [[[]|] s']; [apply IH|done].
Qed.

(** The first loop: every thread adds one to the count of its line. *)
Lemma countThreads_spec threads this :
  Forall (λ t, t ≠ []) threads →
  Forall rangeDefined' threads →
  ∃ this',
    for_of countThread' threads this = (Normal (), this') ∧
    document this' = document this ∧
    _threadMap this' = _threadMap this ∧
    ∀ L, getLineThreadCount this' L =
         getLineThreadCount this L
         + Z.of_nat (length (filter (λ t, threadLine' t = Normal L) threads)).
Proof.
  intros Hne. revert this. induction Hne as [|t threads Ht _ IH]; intros this Hdef.
  - exists this. repeat split; try done. intros L. simpl. lia.
  - apply Forall_cons in Hdef as [Hdef0 Hdef].
    destruct (threadLine_nonempty t Ht Hdef0) as [line Hline].
    cbn [for_of]. unfold countThread at 1. rewrite Hline.
    destruct (IH (mk (document this) (_threadMap this)
                     (<[line := default 0 (_threadLineCount this !! line) + 1]>
                        (_threadLineCount this)))
                 Hdef)
      as (this' & Hloop & Hdoc & Hmap & Hcount).
    exists this'. split; [done|]. split; [done|]. split; [done|].
    intros L. rewrite Hcount. unfold getLineThreadCount. simpl.
    rewrite filter_cons, Hline.
    destruct (decide (Normal line = Normal L)) as [[= ->]|Hneq].
    + rewrite lookup_insert_eq. simpl. lia.
    + rewrite lookup_insert_ne by congruence. lia.
Qed.

(** The first loop ends at the first thread on whose first comment
    [getCommentRange] throws: the threads before it are counted, and nothing
    else of the registry has changed. *)
Lemma countThreads_throws pre t post this c0 :
  Forall (λ t, t ≠ []) pre →
  Forall rangeDefined' pre →
  head t = Some c0 → getCommentRange' c0 = Throw →
  ∃ this',
    for_of countThread' (pre ++ t :: post) this = (Throw, this') ∧
    document this' = document this ∧
    _threadMap this' = _threadMap this ∧
    ∀ L, getLineThreadCount this' L =
         getLineThreadCount this L
         + Z.of_nat (length (filter (λ t, threadLine' t = Normal L) pre)).
Proof.
  intros Hne Hdef Hhead Hthrow.
  destruct (countThreads_spec pre this Hne Hdef) as (this' & Hloop & Hrest).
  exists this'. split; [|done].
  rewrite for_of_app, Hloop. cbn [for_of].
  unfold countThread, threadLine. by rewrite Hhead, Hthrow.
Qed.

Lemma registerComments_lookup_None this th cs k :
  _threadMap (registerComments this th cs) !! k = None ↔
  _threadMap this !! k = None ∧ k ∉ Comment.id <$> cs.
Proof.
  unfold registerComments. simpl. generalize (_threadMap this) as m.
  induction cs as [|c cs IH]; intros m; simpl.
  - split; [|tauto]. intros ?. split; [done|apply not_elem_of_nil].
  - rewrite IH, not_elem_of_cons.
    destruct (decide (Comment.id c = k)) as [<-|Hne].
    + rewrite lookup_insert_eq. split; [by intros [? _]|by intros (_ & ? & _)].
    + rewrite lookup_insert_ne by done. split.
      * intros [? ?]. split; [done|]. split; [congruence|done].
      * by intros (? & _ & ?).
Qed.

(** The second loop: only threads with an anchor get an editor thread, and
    only their comments are registered. *)
Lemma registerThreads_spec threads this ctrl :
  Forall (λ t, t ≠ []) threads →
  Forall rangeDefined' threads →
  ∃ this' ctrl',
    for_of registerThread' threads (this, ctrl) = (Normal (), (this', ctrl')) ∧
    document this' = document this ∧
    _threadLineCount this' = _threadLineCount this ∧
    (∀ k, _threadMap this !! k = None →
          (∀ t, t ∈ threads → hasAnchor' t → k ∉ Comment.id <$> t) →
          _threadMap this' !! k = None) ∧
    (∀ th, th ∈ ctrl' → th ∈ ctrl ∨ hasAnchor' (vscode.comments th)).
Proof.
  intros Hne. revert this ctrl.
  induction Hne as [|t threads Ht _ IH]; intros this ctrl Hdef.
  - exists this, ctrl. repeat split; try done. intros th ?. by left.
  - apply Forall_cons in Hdef as [Hdef0 Hdef].
    destruct t as [|c0 t]; [done|]. cbn [for_of].
    unfold registerThread at 1, createCommentThread. cbn [head].
    unfold rangeDefined in Hdef0. cbn [head] in Hdef0.
    destruct (getCommentRange' c0) as [[range|]|] eqn:Hrange; [| |done].
    + cbn [vscode.createCommentThread].
      set (vt := vscode.mkCommentThread (length ctrl) (document this) range (c0 :: t)).
      assert (hasAnchor' (c0 :: t)) as Hanchor by (by exists c0, range).
      destruct (GerritCommentThread_from vt) as [gth|]; cbn [fmap option_fmap option_map].
      * destruct (IH (registerComments this (setComments gth (c0 :: t)) (c0 :: t))
                     (ctrl ++ [vt]) Hdef)
          as (this' & ctrl' & Hloop & Hdoc & Hcount & Hmap & Hctrl).
        exists this', ctrl'. split; [done|]. split; [done|]. split; [done|]. split.
        -- intros k Hk Hfree. apply Hmap.
           ++ apply registerComments_lookup_None. split; [done|].
              apply Hfree; [by left|done].
           ++ intros t' Ht'. apply Hfree. by right.
        -- intros th [Hth|Hth]%Hctrl; [|by right].
           apply elem_of_app in Hth as [?| ->%list_elem_of_singleton]; [by left|by right].
      * destruct (IH this (ctrl ++ [vt]) Hdef)
          as (this' & ctrl' & Hloop & Hdoc & Hcount & Hmap & Hctrl).
        exists this', ctrl'. split; [done|]. split; [done|]. split; [done|]. split.
        -- intros k Hk Hfree. apply Hmap; [done|].
           intros t' Ht'. apply Hfree. by right.
        -- intros th [Hth|Hth]%Hctrl; [|by right].
           apply elem_of_app in Hth as [?| ->%list_elem_of_singleton]; [by left|by right].
    + destruct (IH this ctrl Hdef)
        as (this' & ctrl' & Hloop & Hdoc & Hcount & Hmap & Hctrl).
      exists this', ctrl'. split; [done|]. split; [done|]. split; [done|]. split; [|done].
      intros k Hk Hfree. apply Hmap; [done|].
      intros t' Ht'. apply Hfree. by right.
Qed.

Lemma loadedThreads_nonempty fuel fileMeta fetched drafts threads :
  loadedThreads' fuel fileMeta fetched drafts = Some threads →
  Forall (λ t, t ≠ []) threads.
Proof.
  unfold loadedThreads. destruct (_buildThreadsFromComments _ _) as [built|]; [|done].
  intros [= <-]. apply Forall_forall. intros t [Hlen _]%list_elem_of_filter.
  intros ->. by apply Hlen.
Qed.

(** C9: when one of the two fetches of [loadComments] is rejected, the call
    leaves the registry (and the comment controller) as it found them, and
    for a document with file meta data the returned promise is rejected. *)
Theorem C9_failed_fetch_leaves_registry_unchanged
    (fuel : nat) (this : DocumentCommentManager.t) (ctrl : vscode.CommentController)
    (getForMeta getDraftsForMeta : Awaited (gmap string (list GerritCommentBase))) :
  getForMeta = Rejected ∨ getDraftsForMeta = Rejected →
  ∃ outcome,
    loadComments' fuel this ctrl getForMeta getDraftsForMeta
      = Some (outcome, (this, ctrl)) ∧
    (is_Some (tryGetFileMeta (document this)) → outcome = Throw).
Proof.
  intros Hrej. unfold loadComments.
  destruct (tryGetFileMeta (document this)) as [fileMeta|].
  - exists Throw. split; [|done].
    destruct Hrej as [->| ->]; [done|]. by destruct getForMeta.
  - exists (Normal ()). split; [done|]. by intros [? ?].
Qed.

(** C10 (amended): when [getCommentRange] throws for the first comment of
    no built thread (no such comment without a range has a negative line,
    and the conversion of its range does not throw), then for a thread built
    by [loadComments] whose first comment in thread order (the one updated
    first, the root when no reply is older) has neither a range nor a line,
    the call ends normally with the count of line [-1] increased;
    [createCommentThread] returns [null] for the thread and creates no editor
    thread, every editor thread created by the call belonging to a thread
    with an anchor; and an id of the thread stays unregistered, so that
    [getThreadByComment] returns [null] for it, when it was not registered
    before the call and no thread with an anchor holds a comment of that
    id. *)
Theorem C10_thread_without_anchor_counted_not_registered
    (fuel : nat) (this : DocumentCommentManager.t) (ctrl : vscode.CommentController)
    (fileMeta : FileMeta) (fetched drafts : gmap string (list GerritCommentBase))
    (threads : list (list GerritCommentBase))
    (thread : list GerritCommentBase) (c0 : GerritCommentBase) :
  tryGetFileMeta (document this) = Some fileMeta →
  loadedThreads' fuel fileMeta fetched drafts = Some threads →
  Forall rangeDefined' threads →
  thread ∈ threads → head thread = Some c0 →
  Comment.range c0 = None → Comment.line c0 = None →
  ∃ this' ctrl',
    loadComments' fuel this ctrl (Fulfilled fetched) (Fulfilled drafts)
      = Some (Normal (), (this', ctrl')) ∧
    getLineThreadCount this (-1) < getLineThreadCount this' (-1) ∧
    createCommentThread' this' ctrl' thread = (Normal None, ctrl') ∧
    (∀ th, th ∈ ctrl' → th ∈ ctrl ∨ hasAnchor' (vscode.comments th)) ∧
    (∀ c, c ∈ thread → getThreadByComment this c = None →
          (∀ t, t ∈ threads → hasAnchor' t → Comment.id c ∉ Comment.id <$> t) →
          getThreadByComment this' c = None).
Proof.
  intros Hmeta Hthreads Hdef Hin Hhead Hrange Hline.
  pose proof (loadedThreads_nonempty _ _ _ _ _ Hthreads) as Hne.
  pose proof (getCommentRange_no_anchor c0 Hrange Hline) as Hnone.
  destruct (countThreads_spec threads this Hne Hdef)
    as (this1 & Hloop1 & Hdoc1 & Hmap1 & Hcount1).
  destruct (registerThreads_spec threads this1 ctrl Hne Hdef)
    as (this' & ctrl' & Hloop2 & Hdoc2 & Hcount2 & Hmap2 & Hctrl2).
  exists this', ctrl'. split; [|split; [|split; [|split]]].
  - unfold loadComments. rewrite Hmeta, Hthreads. simpl. by rewrite Hloop1, Hloop2.
  - unfold getLineThreadCount in *. rewrite Hcount2, Hcount1.
    assert (thread ∈ filter (λ t, threadLine' t = Normal (-1)) threads) as Hf.
    { apply list_elem_of_filter. split; [|done].
      unfold threadLine. by rewrite Hhead, Hnone. }
    destruct (filter _ threads); [by apply elem_of_nil in Hf|]. simpl. lia.
  - unfold createCommentThread. by rewrite Hhead, Hnone.
  - done.
  - intros c Hc Hfree Hother. unfold getThreadByComment in *.
    apply Hmap2; [by rewrite Hmap1|done].
Qed.

End registry_facts.

(** ** The registry on concrete inputs *)

Section registry_examples.
Import DocumentCommentManager Sample.

(** C1: the callback of the side filter does not compare the side of a
    comment that has one.  Whatever the truthiness of the members of
    [GerritCommentSide], it differs from "the side of the comment, [RIGHT]
    by default, is the side of the document" on some comment; with truthy
    members (a string enum), a root of the left side in a document of the
    right side is kept and is built into a thread. *)
Theorem C1_side_filter_keeps_other_side :
  (∀ truthy_side : GerritCommentSide → bool,
     ∃ fileMeta c,
       thisSideCallback truthy_side fileMeta c ≠ sideAsSpecified fileMeta c) ∧
  thisSideCallback truthyAlways metaRight leftRoot = true ∧
  sideAsSpecified metaRight leftRoot = false ∧
  loadedThreads truthyAlways 2 metaRight {["a.ts" := [leftRoot]]} ∅
    = Some [[leftRoot]].
Proof.
  split; [|by vm_compute].
  intros truthy_side.
  destruct (truthy_side LEFT) eqn:HL; [|destruct (truthy_side RIGHT) eqn:HR].
  - exists metaRight, leftRoot. unfold thisSideCallback. simpl. by rewrite HL.
  - exists (mkFileMeta "I1" "abc" "a.ts" LEFT),
           (Comment.mk "R" None 10 (Some RIGHT) None None).
    unfold thisSideCallback. simpl. by rewrite HR.
  - exists metaRight, (Comment.mk "R" None 10 (Some RIGHT) None None).
    unfold thisSideCallback. simpl. by rewrite HR.
Qed.

(** On comments without a side the callback does what the design document
    says. *)
Lemma thisSideCallback_no_side truthy_side fileMeta c :
  Comment.side c = None →
  thisSideCallback truthy_side fileMeta c = sideAsSpecified fileMeta c.
Proof. unfold thisSideCallback, sideAsSpecified. by intros ->. Qed.

Lemma C9_failed_fetch_leaves_registry_unchanged_witness :
  (Fulfilled ({["a.ts" := [lateRoot]]} : gmap string (list GerritCommentBase)) = Rejected
   ∨ (Rejected : Awaited (gmap string (list GerritCommentBase))) = Rejected) ∧
  ∃ outcome,
    loadComments truthyAlways rangeOf metaOf wrap 3 (new "a.ts") []
                 (Fulfilled {["a.ts" := [lateRoot]]}) Rejected
      = Some (outcome, (new "a.ts", [])) ∧
    (is_Some (metaOf (document (new "a.ts"))) → outcome = Throw).
Proof.
  assert (H : Fulfilled ({["a.ts" := [lateRoot]]} : gmap string (list GerritCommentBase))
              = Rejected
              ∨ (Rejected : Awaited (gmap string (list GerritCommentBase))) = Rejected)
    by (right; reflexivity).
  split; [exact H|].
  exact (C9_failed_fetch_leaves_registry_unchanged truthyAlways rangeOf metaOf wrap
           3 (new "a.ts") [] (Fulfilled {["a.ts" := [lateRoot]]}) Rejected H).
Defined.

Lemma C10_thread_without_anchor_counted_not_registered_witness :
  (metaOf (document (new "a.ts")) = Some metaRight ∧
   loadedThreads truthyAlways 3 metaRight {["a.ts" := [lateRoot]]} ∅
     = Some [[lateRoot]] ∧
   Forall (rangeDefined rangeOf) [[lateRoot]] ∧
   [lateRoot] ∈ [[lateRoot]] ∧ head [lateRoot] = Some lateRoot ∧
   Comment.range lateRoot = None ∧ Comment.line lateRoot = None) ∧
  ∃ this' ctrl',
    loadComments truthyAlways rangeOf metaOf wrap 3 (new "a.ts") []
                 (Fulfilled {["a.ts" := [lateRoot]]}) (Fulfilled ∅)
      = Some (Normal (), (this', ctrl')) ∧
    getLineThreadCount (new "a.ts") (-1) < getLineThreadCount this' (-1) ∧
    createCommentThread rangeOf wrap this' ctrl' [lateRoot] = (Normal None, ctrl') ∧
    (∀ th, th ∈ ctrl' → th ∈ [] ∨ hasAnchor rangeOf (vscode.comments th)) ∧
    (∀ c, c ∈ [lateRoot] → getThreadByComment (new "a.ts") c = None →
          (∀ t, t ∈ [[lateRoot]] → hasAnchor rangeOf t →
                Comment.id c ∉ Comment.id <$> t) →
          getThreadByComment this' c = None).
Proof.
  assert (H1 : metaOf (document (new "a.ts")) = Some metaRight) by reflexivity.
  assert (H2 : loadedThreads truthyAlways 3 metaRight {["a.ts" := [lateRoot]]} ∅
               = Some [[lateRoot]]) by (vm_compute; reflexivity).
  assert (H3 : [lateRoot] ∈ [[lateRoot]]) by (left).
  assert (H4 : Forall (rangeDefined rangeOf) [[lateRoot]])
    by (apply (bool_decide_unpack _); vm_compute; exact I).
  split; [repeat split; done|].
  exact (C10_thread_without_anchor_counted_not_registered
           truthyAlways rangeOf metaOf wrap 3 (new "a.ts") [] metaRight
           {["a.ts" := [lateRoot]]} ∅ [[lateRoot]] [lateRoot] lateRoot
           H1 H2 H4 H3 eq_refl eq_refl eq_refl).
Defined.

(** C10, as stated, fails in three ways.  The anchor is taken from the first
    comment of the sorted thread, which is not the root when a reply is
    older: the root [lateRoot] has neither range nor line and its older reply
    has line 3; the thread is counted at line 2 and not at line [-1], an
    editor thread is created, and the root is registered.  With a second
    root of the same id that has a line, the thread of [lateRoot] is counted
    at line [-1], yet its id is registered by the other thread.  And with a
    root of line [-1] before it, the first loop throws in [new Position]
    before it comes to the thread of [lateRoot]: the promise is rejected and
    the count of line [-1] is not increased. *)
Lemma C10_root_counterexample :
  (∃ this' ctrl',
     loadedThreads truthyAlways 3 metaRight {["a.ts" := [lateRoot; earlyReply]]} ∅
       = Some [[earlyReply; lateRoot]] ∧
     isRoot lateRoot ∧ Comment.range lateRoot = None ∧ Comment.line lateRoot = None ∧
     loadComments truthyAlways rangeOf metaOf wrap 3 (new "a.ts") []
                  (Fulfilled {["a.ts" := [lateRoot; earlyReply]]}) (Fulfilled ∅)
       = Some (Normal (), (this', ctrl')) ∧
     getLineThreadCount this' (-1) = 0 ∧
     getLineThreadCount this' 2 = 1 ∧
     length ctrl' = 1%nat ∧
     is_Some (getThreadByComment this' lateRoot)) ∧
  (∃ this' ctrl',
     loadedThreads truthyAlways 3 metaRight {["a.ts" := [lateRoot; rootTwin]]} ∅
       = Some [[lateRoot]; [rootTwin]] ∧
     loadComments truthyAlways rangeOf metaOf wrap 3 (new "a.ts") []
                  (Fulfilled {["a.ts" := [lateRoot; rootTwin]]}) (Fulfilled ∅)
       = Some (Normal (), (this', ctrl')) ∧
     getLineThreadCount this' (-1) = 1 ∧
     length ctrl' = 1%nat ∧
     is_Some (getThreadByComment this' lateRoot)) ∧
  (∃ this',
     loadedThreads truthyAlways 3 metaRight {["a.ts" := [negativeRoot; lateRoot]]} ∅
       = Some [[negativeRoot]; [lateRoot]] ∧
     Comment.range lateRoot = None ∧ Comment.line lateRoot = None ∧
     loadComments truthyAlways rangeOf metaOf wrap 3 (new "a.ts") []
                  (Fulfilled {["a.ts" := [negativeRoot; lateRoot]]}) (Fulfilled ∅)
       = Some (Throw, (this', [])) ∧
     getLineThreadCount this' (-1) = 0).
Proof.
  split; [|split].
  - eexists _, _. split; [by vm_compute|]. split; [by left|].
    split; [done|]. split; [done|]. split; [vm_compute; reflexivity|].
    split; [by vm_compute|]. split; [by vm_compute|]. split; [by vm_compute|].
    vm_compute. by eexists.
  - eexists _, _. split; [by vm_compute|]. split; [vm_compute; reflexivity|].
    split; [by vm_compute|]. split; [by vm_compute|].
    vm_compute. by eexists.
  - eexists _. split; [by vm_compute|]. split; [done|]. split; [done|].
    split; [vm_compute; reflexivity|]. by vm_compute.
Qed.

End registry_examples.

(** ** The directory: [getFileManagersForUri] *)

Section directory_facts.
Import CommentManager.
Context (tryGetFileMeta : vscode.Uri → option FileMeta).
Context (fileMetaToKey : FileMeta → string).

Lemma getFileManagersForUri_existing st uri meta managers :
  tryGetFileMeta uri = Some meta →
  _commentManagersByFilePath st !! filePath meta = Some managers →
  getFileManagersForUri tryGetFileMeta fileMetaToKey st uri = (managers, st).
Proof. unfold getFileManagersForUri. by intros -> ->. Qed.

Lemma getFileManagersForUri_missing st uri meta :
  tryGetFileMeta uri = Some meta →
  _commentManagersByFilePath st !! filePath meta = None →
  getFileManagersForUri tryGetFileMeta fileMetaToKey st uri =
    ([], mk (objects st ++ [DocumentCommentManager.new uri])
            (<[fileMetaToKey meta := length (objects st)]> (_commentManagers st))
            (_commentManagersByFilePath st)).
Proof. unfold getFileManagersForUri. intros -> Hnone. simpl. by rewrite Hnone. Qed.

(** The callback for an opened document puts the new registry in the list
    of its file path. *)
Lemma provideCommentingRanges_listed st document meta :
  tryGetFileMeta document = Some meta →
  ∃ managers,
    _commentManagersByFilePath
      (provideCommentingRanges tryGetFileMeta fileMetaToKey st document)
      !! filePath meta = Some managers ∧
    length (objects st) ∈ managers.
Proof.
  unfold provideCommentingRanges. intros ->.
  destruct (decide (is_Some (_commentManagersByFilePath st !! filePath meta)))
    as [[managers Hm]|Hnone].
  - rewrite Hm. simpl. rewrite lookup_insert_eq. eexists. split; [done|].
    apply elem_of_app. right. by left.
  - rewrite lookup_insert_eq. simpl. rewrite lookup_insert_eq.
    eexists. split; [done|]. by left.
Qed.

End directory_facts.

(** C8: for a file path without a list, [getFileManagersForUri] creates a
    registry and stores it under the key of the file meta data only; the
    list of the file path is not created, the caller gets the empty list, and
    so does the next lookup.  The callback for an opened document, in
    contrast, lists the registry it creates. *)
Theorem C8_lazily_created_registry_is_not_returned :
  ∃ st1,
    CommentManager.getFileManagersForUri Sample.metaOf Sample.keyOf
      CommentManager.init "a.ts" = ([], st1) ∧
    CommentManager.objects st1 = [DocumentCommentManager.new "a.ts"] ∧
    CommentManager._commentManagers st1 !! "a.ts" = Some 0%nat ∧
    CommentManager._commentManagersByFilePath st1 !! "a.ts" = None ∧
    (CommentManager.getFileManagersForUri Sample.metaOf Sample.keyOf st1 "a.ts").1 = [] ∧
    (CommentManager.getFileManagersForUri Sample.metaOf Sample.keyOf
       (CommentManager.provideCommentingRanges Sample.metaOf Sample.keyOf
          CommentManager.init "a.ts") "a.ts").1 = [0%nat].
Proof.
  eexists. split; [reflexivity|]. repeat split; by vm_compute.
Qed.

(** * Further properties of the sources *)

(** ** The change cache *)

Section cache_more.
Import GerritChangeCache.

Lemma set_lookup (c : GerritChangeCache.t) i w e j :
  set c i w e !! j =
    if decide (i = j)
    then Some (<[_withValuesToString w := e]> (default ∅ (c !! i)))
    else c !! j.
Proof.
  unfold set. destruct (decide (i = j)) as [<-|Hij].
  - destruct (c !! i) as [inner|] eqn:Hc.
    + rewrite decide_True by eauto. by rewrite Hc, lookup_insert_eq.
    + rewrite decide_False by (by intros [? ?]).
      by rewrite lookup_insert_eq, lookup_insert_eq.
  - destruct (decide (is_Some (c !! i))) as [[inner Hc]|Hn].
    + rewrite Hc. by rewrite lookup_insert_ne.
    + rewrite lookup_insert_eq. by rewrite !lookup_insert_ne.
Qed.

(** X1: [has] answers whether [get] returns an entity: it is [true] exactly
    when [get] returns one, and [false] exactly when [get] returns [null] or
    [undefined]. *)
Theorem has_iff_get_returns_entity
    (c : GerritChangeCache.t) (changeId : string) (withValues : list GerritAPIWith) :
  (has c changeId withValues = true ↔ ∃ e, get c changeId withValues = JSValue e) ∧
  (has c changeId withValues = false ↔
     get c changeId withValues = JSNull ∨ get c changeId withValues = JSUndefined).
Proof.
  split; [apply has_true_iff|].
  rewrite <-not_true_iff_false, has_true_iff.
  destruct (get c changeId withValues) as [| |e].
  - split; [by left|]. by intros _ [e ?].
  - split; [by right|]. by intros _ [e ?].
  - split; [|by intros [?|?]]. intros H. exfalso. apply H. by eexists.
Qed.

(** X2: the order in which the options are listed does not matter for a
    hit: after [set] under one listing, [get] and [has] under any reordering
    of it find the entity. *)
Theorem set_then_get_any_order
    (c : GerritChangeCache.t) (changeId : string)
    (withValues withValues' : list GerritAPIWith) (e : GerritChange) :
  withValues ≡ₚ withValues' →
  get (set c changeId withValues e) changeId withValues' = JSValue e ∧
  has (set c changeId withValues e) changeId withValues' = true.
Proof.
  intros Hp.
  assert (get (set c changeId withValues e) changeId withValues' = JSValue e) as Hget.
  { unfold get. rewrite set_lookup, decide_True by done. unfold map_get.
    by rewrite <-(withValuesToString_Permutation _ _ Hp), lookup_insert_eq. }
  split; [done|]. apply has_true_iff. by eexists.
Qed.

Lemma set_then_get_any_order_witness :
  ["MESSAGES"; "LABELS"] ≡ₚ ["LABELS"; "MESSAGES"] ∧
  get (set empty "I1" ["MESSAGES"; "LABELS"] (mkChange "I1" 1))
      "I1" ["LABELS"; "MESSAGES"] = JSValue (mkChange "I1" 1) ∧
  has (set empty "I1" ["MESSAGES"; "LABELS"] (mkChange "I1" 1))
      "I1" ["LABELS"; "MESSAGES"] = true.
Proof.
  assert (H : ["MESSAGES"; "LABELS"] ≡ₚ ["LABELS"; "MESSAGES"]) by apply Permutation_swap.
  split; [exact H|].
  exact (set_then_get_any_order empty "I1" ["MESSAGES"; "LABELS"]
           ["LABELS"; "MESSAGES"] (mkChange "I1" 1) H).
Defined.

(** X3: two [set] calls that differ in the id or in the normalized key can
    be made in either order: the resulting caches are the same. *)
Theorem set_set_commute
    (c : GerritChangeCache.t) (i j : string) (w w' : list GerritAPIWith)
    (e e' : GerritChange) :
  i ≠ j ∨ _withValuesToString w ≠ _withValuesToString w' →
  set (set c i w e) j w' e' = set (set c j w' e') i w e.
Proof.
  intros Hne. apply map_eq. intros k. rewrite !set_lookup.
  repeat case_decide; simplify_eq/=; try done.
  f_equal. apply insert_insert_ne. by destruct Hne.
Qed.

Lemma set_set_commute_witness :
  ("I1" ≠ "I1" ∨ _withValuesToString ["LABELS"] ≠ _withValuesToString ["MESSAGES"]) ∧
  set (set empty "I1" ["LABELS"] (mkChange "I1" 1)) "I1" ["MESSAGES"] (mkChange "I1" 2)
    = set (set empty "I1" ["MESSAGES"] (mkChange "I1" 2)) "I1" ["LABELS"] (mkChange "I1" 1).
Proof.
  assert (H : "I1" ≠ "I1" ∨ _withValuesToString ["LABELS"]
                               ≠ _withValuesToString ["MESSAGES"]) by (by right).
  split; [exact H|].
  exact (set_set_commute empty "I1" "I1" ["LABELS"] ["MESSAGES"]
           (mkChange "I1" 1) (mkChange "I1" 2) H).
Defined.

End cache_more.

(** ** [uniqueComplex] and [uniqueSimple] *)

Section uniqueComplex_more.
Context `{Truthy T} (key : T → string).

Local Abbreviation push := (uniqueComplex_push key).
Local Abbreviation withKey k l := (filter (λ x : T, key x = k) l).

(** [items.find] returns the first item with the key. *)
Lemma find_withKey items k :
  List.find (λ i, String.eqb (key i) k) items = head (withKey k items).
Proof.
  induction items as [|a items IH]; [done|]. simpl. rewrite filter_cons.
  destruct (String.eqb_spec (key a) k) as [Heq|Hne].
  - by rewrite decide_True.
  - by rewrite decide_False.
Qed.

Lemma push_spec items item :
  push items item =
    match head (withKey (key item) items) with
    | Some first => if truthy first then items else items ++ [item]
    | None => items ++ [item]
    end.
Proof. unfold uniqueComplex_push. by rewrite find_withKey. Qed.

Lemma push_either items item :
  push items item = items ∨ push items item = items ++ [item].
Proof.
  rewrite push_spec. destruct (head _) as [first|]; [destruct (truthy first)|]; auto.
Qed.

Lemma foldl_push_sublist arr items :
  ∃ kept, foldl push items arr = items ++ kept ∧ kept `sublist_of` arr.
Proof.
  revert items. induction arr as [|a arr IH]; intros items; cbn [foldl].
  - exists []. by rewrite app_nil_r.
  - destruct (push_either items a) as [Heq|Heq]; rewrite Heq.
    + destruct (IH items) as (kept & -> & Hsub). exists kept.
      split; [done|]. by apply sublist_cons.
    + destruct (IH (items ++ [a])) as (kept & -> & Hsub). exists (a :: kept).
      split; [by rewrite <-app_assoc|]. by apply sublist_skip.
Qed.

(** The items with the key [k] after the loop has run over [arr]: when the
    first item with the key is truthy it stays the only one; when it is
    falsy, every later item with the key is pushed. *)
Lemma foldl_push_withKey k arr items :
  withKey k (foldl push items arr) =
    withKey k items ++
    match head (withKey k items) with
    | Some first => if truthy first then [] else withKey k arr
    | None =>
        match head (withKey k arr) with
        | Some first => if truthy first then [first] else withKey k arr
        | None => []
        end
    end.
Proof.
  revert items. induction arr as [|a arr IH]; intros items; cbn [foldl].
  - rewrite filter_nil. simpl.
    destruct (head _) as [first|]; [destruct (truthy first)|]; by rewrite app_nil_r.
  - rewrite IH, (filter_cons _ a arr). destruct (decide (key a = k)) as [<-|Hne].
    + rewrite push_spec.
      destruct (withKey (key a) items) as [|first rest] eqn:Hitems; cbn [head].
      * rewrite filter_app, Hitems, filter_cons, decide_True, filter_nil by done.
        simpl. by destruct (truthy a).
      * destruct (truthy first) eqn:Hfirst.
        -- rewrite Hitems. cbn [head]. by rewrite Hfirst.
        -- rewrite filter_app, Hitems, filter_cons, decide_True, filter_nil by done.
           cbn [head app]. rewrite Hfirst. by rewrite <-app_assoc.
    + assert (withKey k (push items a) = withKey k items) as ->; [|done].
      destruct (push_either items a) as [->| ->]; [done|].
      rewrite filter_app, filter_cons, decide_False by done.
      by rewrite filter_nil, app_nil_r.
Qed.

Lemma uniqueComplex_withKey k arr :
  withKey k (uniqueComplex arr key) =
    match head (withKey k arr) with
    | Some first => if truthy first then [first] else withKey k arr
    | None => []
    end.
Proof. unfold uniqueComplex. by rewrite foldl_push_withKey. Qed.

Lemma uniqueComplex_sublist arr : uniqueComplex arr key `sublist_of` arr.
Proof.
  unfold uniqueComplex.
  by destruct (foldl_push_sublist arr []) as (kept & -> & Hsub).
Qed.

Lemma head_withKey_elem_of k l first :
  head (withKey k l) = Some first → first ∈ l ∧ key first = k.
Proof.
  intros Hhead. apply head_Some_elem_of in Hhead.
  by apply list_elem_of_filter in Hhead as [? ?].
Qed.

Lemma NoDup_fmap_withKey (l : list T) :
  (∀ k, (length (withKey k l) ≤ 1)%nat) → NoDup (key <$> l).
Proof.
  induction l as [|a l IH]; intros Hlen; [constructor|].
  rewrite fmap_cons. apply NoDup_cons. split.
  - intros (b & Hk & Hb)%list_elem_of_fmap. specialize (Hlen (key a)).
    rewrite filter_cons, decide_True in Hlen by done. simpl in Hlen.
    assert (b ∈ withKey (key a) l) as Hin by (by apply list_elem_of_filter).
    destruct (withKey (key a) l); [by apply elem_of_nil in Hin|]. simpl in Hlen. lia.
  - apply IH. intros k. specialize (Hlen k). rewrite filter_cons in Hlen.
    destruct (decide (key a = k)); simpl in Hlen; lia.
Qed.

(** X4: for each key, [uniqueComplex] keeps the first item of the array
    with that key; it keeps no other item with the key when that first item
    is truthy, and every item with the key when it is falsy.  So the result
    holds only items of the array, holds an item for every key of the array,
    and holds no two items with the same key when the items of the array are
    truthy. *)
Theorem uniqueComplex_by_key (arr : list T) :
  (∀ k, filter (λ x, key x = k) (uniqueComplex arr key) =
        match head (filter (λ x, key x = k) arr) with
        | Some first =>
            if truthy first then [first] else filter (λ x, key x = k) arr
        | None => []
        end) ∧
  (∀ x, x ∈ uniqueComplex arr key → x ∈ arr) ∧
  (∀ x, x ∈ arr → ∃ y, y ∈ uniqueComplex arr key ∧ key y = key x) ∧
  ((∀ x, x ∈ arr → truthy x = true) → NoDup (key <$> uniqueComplex arr key)).
Proof.
  split; [intros k; apply uniqueComplex_withKey|]. split; [|split].
  - intros x Hx. eapply elem_of_submseteq; [exact Hx|].
    apply sublist_submseteq, uniqueComplex_sublist.
  - intros x Hx.
    assert (x ∈ withKey (key x) arr) as Hin by (by apply list_elem_of_filter).
    pose proof (uniqueComplex_withKey (key x) arr) as Hk.
    destruct (withKey (key x) arr) as [|first rest] eqn:Harr;
      [by apply elem_of_nil in Hin|].
    assert (first ∈ withKey (key x) (uniqueComplex arr key)) as Hfirst.
    { rewrite Hk. cbn [head]. destruct (truthy first); by left. }
    apply list_elem_of_filter in Hfirst as [? ?]. by exists first.
  - intros Htruthy. apply NoDup_fmap_withKey. intros k.
    rewrite uniqueComplex_withKey.
    destruct (head (withKey k arr)) as [first|] eqn:Hhead; [|simpl; lia].
    apply head_withKey_elem_of in Hhead as [Hin _].
    rewrite (Htruthy first Hin). simpl. lia.
Qed.

(** X5: [uniqueComplex] keeps the items in the order of the array, and the
    first item of the array with a key is the first item of the result with
    that key; when the items of the array are truthy, an item of the result
    is the first item of the array with its key. *)
Theorem uniqueComplex_keeps_first_in_order (arr : list T) :
  uniqueComplex arr key `sublist_of` arr ∧
  (∀ k, head (filter (λ x, key x = k) (uniqueComplex arr key))
        = head (filter (λ x, key x = k) arr)) ∧
  ((∀ x, x ∈ arr → truthy x = true) →
   ∀ x, x ∈ uniqueComplex arr key →
        head (filter (λ y, key y = key x) arr) = Some x).
Proof.
  split; [apply uniqueComplex_sublist|]. split.
  - intros k. rewrite uniqueComplex_withKey.
    destruct (withKey k arr) as [|first rest]; [done|]. cbn [head].
    by destruct (truthy first).
  - intros Htruthy x Hx.
    assert (x ∈ withKey (key x) (uniqueComplex arr key)) as Hin
      by (by apply list_elem_of_filter).
    rewrite uniqueComplex_withKey in Hin.
    destruct (head (withKey (key x) arr)) as [first|] eqn:Hhead;
      [|by apply elem_of_nil in Hin].
    pose proof (head_withKey_elem_of _ _ _ Hhead) as [Hfirst _].
    rewrite (Htruthy first Hfirst) in Hin.
    by apply list_elem_of_singleton in Hin as ->.
Qed.

Lemma foldl_push_distinct arr items :
  NoDup (key <$> (items ++ arr)) → foldl push items arr = items ++ arr.
Proof.
  revert items. induction arr as [|a arr IH]; intros items Hnd; cbn [foldl].
  - by rewrite app_nil_r.
  - rewrite push_fresh.
    + rewrite IH; [by rewrite <-app_assoc|]. by rewrite <-app_assoc.
    + intros y Hy Hk. rewrite fmap_app, fmap_cons in Hnd.
      apply NoDup_app in Hnd as (_ & Hdisj & _).
      apply (Hdisj (key y)); [by apply list_elem_of_fmap_2|]. rewrite Hk. by left.
Qed.

(** X6: an array whose items have pairwise distinct keys is returned as it
    is. *)
Theorem uniqueComplex_distinct_keys_id (arr : list T) :
  NoDup (key <$> arr) → uniqueComplex arr key = arr.
Proof. intros Hnd. rewrite uniqueComplex_foldl. by apply foldl_push_distinct. Qed.

(** A list that the loop, started from nothing, returns as it is stays so
    after one more turn of the loop. *)
Lemma push_stable items item :
  foldl push [] items = items →
  foldl push [] (push items item) = push items item.
Proof.
  intros Hstable. destruct (push_either items item) as [Heq|Heq]; rewrite Heq; [done|].
  by rewrite foldl_app, Hstable.
Qed.

Lemma foldl_push_stable arr items :
  foldl push [] items = items →
  foldl push [] (foldl push items arr) = foldl push items arr.
Proof.
  revert items. induction arr as [|a arr IH]; intros items Hstable; cbn [foldl]; [done|].
  by apply IH, push_stable.
Qed.

(** X7: applying [uniqueComplex] to its own result changes nothing, also
    when the array holds falsy items. *)
Theorem uniqueComplex_idempotent (arr : list T) :
  uniqueComplex (uniqueComplex arr key) key = uniqueComplex arr key.
Proof. unfold uniqueComplex. by apply foldl_push_stable. Qed.

End uniqueComplex_more.

Lemma uniqueComplex_by_key_witness :
  (∀ x, x ∈ [Sample.c1; Sample.d2; Sample.d2'] → truthy x = true) ∧
  NoDup (Comment.id <$> uniqueComplex [Sample.c1; Sample.d2; Sample.d2'] Comment.id).
Proof.
  assert (H : ∀ x, x ∈ [Sample.c1; Sample.d2; Sample.d2'] → truthy x = true)
    by (intros x _; reflexivity).
  split; [exact H|].
  exact (proj2 (proj2 (proj2
           (uniqueComplex_by_key Comment.id [Sample.c1; Sample.d2; Sample.d2']))) H).
Defined.

Lemma uniqueComplex_keeps_first_in_order_witness :
  (∀ x, x ∈ [Sample.c1; Sample.d2; Sample.d2'] → truthy x = true) ∧
  ∀ x, x ∈ uniqueComplex [Sample.c1; Sample.d2; Sample.d2'] Comment.id →
       head (filter (λ y, Comment.id y = Comment.id x)
                    [Sample.c1; Sample.d2; Sample.d2']) = Some x.
Proof.
  assert (H : ∀ x, x ∈ [Sample.c1; Sample.d2; Sample.d2'] → truthy x = true)
    by (intros x _; reflexivity).
  split; [exact H|].
  exact (proj2 (proj2
           (uniqueComplex_keeps_first_in_order Comment.id
              [Sample.c1; Sample.d2; Sample.d2'])) H).
Defined.

Lemma uniqueComplex_distinct_keys_id_witness :
  NoDup (Comment.id <$> [Sample.c1; Sample.c2; Sample.c3]) ∧
  uniqueComplex [Sample.c1; Sample.c2; Sample.c3] Comment.id
    = [Sample.c1; Sample.c2; Sample.c3].
Proof.
  assert (H : NoDup (Comment.id <$> [Sample.c1; Sample.c2; Sample.c3])).
  { apply (bool_decide_unpack _). vm_compute. exact I. }
  split; [exact H|].
  exact (uniqueComplex_distinct_keys_id Comment.id [Sample.c1; Sample.c2; Sample.c3] H).
Defined.

Section uniqueSimple_facts.
Context `{EqDecision T}.

Lemma foldl_Set_add (arr : list T) (s : list T) :
  NoDup s →
  ∃ kept, foldl Set_add s arr = s ++ kept ∧ kept `sublist_of` arr ∧
          NoDup (s ++ kept) ∧ ∀ x, x ∈ s ++ kept ↔ x ∈ s ∨ x ∈ arr.
Proof.
  revert s. induction arr as [|a arr IH]; intros s Hs; cbn [foldl].
  - exists []. rewrite app_nil_r. split; [done|]. split; [done|]. split; [done|].
    intros x. rewrite elem_of_nil. tauto.
  - unfold Set_add at 2. destruct (decide (a ∈ s)) as [Ha|Ha].
    + destruct (IH s Hs) as (kept & -> & Hsub & Hnd & Hin). exists kept.
      split; [done|]. split; [by apply sublist_cons|]. split; [done|].
      intros x. rewrite Hin, elem_of_cons. split; [tauto|].
      intros [?|[->|?]]; tauto.
    + assert (NoDup (s ++ [a])) as Hs'.
      { apply NoDup_app. split; [done|]. split; [|apply NoDup_singleton].
        by intros x Hx ->%list_elem_of_singleton. }
      destruct (IH (s ++ [a]) Hs') as (kept & -> & Hsub & Hnd & Hin).
      exists (a :: kept). rewrite <-!app_assoc in *. simpl in *.
      split; [done|]. split; [by apply sublist_skip|]. split; [done|].
      intros x. rewrite Hin, elem_of_app, list_elem_of_singleton, elem_of_cons. tauto.
Qed.

Lemma uniqueSimple_NoDup (arr : list T) : NoDup (uniqueSimple arr).
Proof.
  unfold uniqueSimple.
  by destruct (foldl_Set_add arr [] (NoDup_nil_2)) as (kept & -> & _ & Hnd & _).
Qed.


End uniqueSimple_facts.

(** ** [optionalObjectProperty] *)


(** ** The thread builder *)

Lemma filter_Forall_id {A} (P : A → Prop) `{∀ x, Decision (P x)} (l : list A) :
  Forall P l → filter P l = l.
Proof.
  induction 1 as [|x l Hx _ IH]; [done|].
  by rewrite filter_cons, decide_True, IH.
Qed.

Section builder_more.
Import DocumentCommentManager.
Context (all : list GerritCommentBase).

Lemma buildThreads_per_root
    (fuel : nat) (threads : list (list GerritCommentBase)) :
  _buildThreadsFromComments fuel all = Some threads →
  Forall2 (λ r t,
             r ∈ t ∧
             (∀ x, x ∈ t → reaches all r x) ∧
             (∀ x, reaches all r x → Comment.id x ∈ Comment.id <$> t))
          (rootsOf all) threads.
Proof.
  intros (ts & Hts & ->)%buildThreads_Some.
  apply Forall2_fmap_r. eapply Forall2_impl; [exact Hts|].
  intros r t Hrt. simpl in Hrt. split; [|split].
  - rewrite elem_of_sortByDate. exact (getAllRepliesTo_root all fuel r t Hrt).
  - intros x Hx. rewrite elem_of_sortByDate in Hx.
    exact (getAllRepliesTo_sound all fuel r t x Hrt Hx).
  - intros x Hx.
    destruct (getAllRepliesTo_complete all fuel r t x Hrt Hx) as (y & Hy & <-).
    apply list_elem_of_fmap_2. by rewrite elem_of_sortByDate.
Qed.

(** With the threads built at depth [fuel], no chain of replies from a root
    has more than [fuel] comments. *)
Lemma replyChain_bounded_by_fuel fuel l :
  is_Some (_buildThreadsFromComments fuel all) →
  replyChain all l → (length l ≤ fuel)%nat.
Proof.
  intros Hsome Hl.
  destruct (replyChain_within_fuel all fuel l
              (proj1 (buildThreads_is_Some all fuel) Hsome) Hl)
    as (c & l' & k & -> & Hk & Hc).
  destruct k as [|k]; [by destruct Hc|]. simpl. lia.
Qed.

(** X10: when the chains of replies that descend from the roots have at
    most [N] comments (no cycle of replies is reached from a root), the
    builder returns, at every depth from [N] on, one thread for each comment
    with a falsy [inReplyTo], in the order of these comments in the input.
    Each thread holds its root, holds only comments that the replies reach
    from the root, and holds a comment with the id of every comment they
    reach. *)
Theorem buildThreads_one_thread_per_root (N : nat) :
  (∀ l, replyChain all l → (length l ≤ N)%nat) →
  ∃ threads,
    (∀ fuel, (N ≤ fuel)%nat → _buildThreadsFromComments fuel all = Some threads) ∧
    Forall2 (λ r t,
               r ∈ t ∧
               (∀ x, x ∈ t → reaches all r x) ∧
               (∀ x, reaches all r x → Comment.id x ∈ Comment.id <$> t))
            (rootsOf all) threads.
Proof.
  intros Hbound.
  destruct (buildThreads_of_bounded_chains all N Hbound) as [threads Hb].
  exists threads. split.
  - intros fuel Hle. by eapply buildThreads_mono.
  - by eapply buildThreads_per_root.
Qed.

End builder_more.

Lemma buildThreads_one_thread_per_root_witness :
  (∀ l, replyChain [Sample.c1; Sample.d2; Sample.d2'; Sample.d3] l →
        (length l ≤ 4)%nat) ∧
  ∃ threads,
    (∀ fuel, (4 ≤ fuel)%nat →
       DocumentCommentManager._buildThreadsFromComments fuel
         [Sample.c1; Sample.d2; Sample.d2'; Sample.d3] = Some threads) ∧
    Forall2 (λ r t,
               r ∈ t ∧
               (∀ x, x ∈ t →
                     reaches [Sample.c1; Sample.d2; Sample.d2'; Sample.d3] r x) ∧
               (∀ x, reaches [Sample.c1; Sample.d2; Sample.d2'; Sample.d3] r x →
                     Comment.id x ∈ Comment.id <$> t))
            (rootsOf [Sample.c1; Sample.d2; Sample.d2'; Sample.d3]) threads.
Proof.
  assert (H : ∀ l, replyChain [Sample.c1; Sample.d2; Sample.d2'; Sample.d3] l →
                   (length l ≤ 4)%nat).
  { intros l. apply replyChain_bounded_by_fuel. vm_compute. by eexists. }
  split; [exact H|].
  exact (buildThreads_one_thread_per_root
           [Sample.c1; Sample.d2; Sample.d2'; Sample.d3] 4 H).
Defined.

(** ** The registry *)

Section registry_more.
Import DocumentCommentManager.
Context (truthy_side : GerritCommentSide → bool).
Context (gerritRangeToVSCodeRange : GerritCommentRange → Completion vscode.Range).
Context (tryGetFileMeta : vscode.Uri → option FileMeta).
Context (GerritCommentThread_from : vscode.CommentThread → option GerritCommentThread).

Local Abbreviation threadLine' := (threadLine gerritRangeToVSCodeRange).
Local Abbreviation hasAnchor' := (hasAnchor gerritRangeToVSCodeRange).
Local Abbreviation rangeDefined' := (rangeDefined gerritRangeToVSCodeRange).
Local Abbreviation registerThread' :=
  (registerThread gerritRangeToVSCodeRange GerritCommentThread_from).
Local Abbreviation loadedThreads' := (loadedThreads truthy_side).
Local Abbreviation loadComments' :=
  (loadComments truthy_side gerritRangeToVSCodeRange tryGetFileMeta
                GerritCommentThread_from).

(** X11: the filter [t.length !== 0] of [loadComments] never removes a
    thread: the threads that are counted and registered are exactly the
    threads the builder returns for the comments the side filter keeps. *)
Theorem loadedThreads_filter_keeps_all
    (fuel : nat) (fileMeta : FileMeta)
    (fetched drafts : gmap string (list GerritCommentBase)) :
  loadedThreads' fuel fileMeta fetched drafts =
    _buildThreadsFromComments fuel
      (filter (λ c, thisSideCallback truthy_side fileMeta c = true)
              (default [] (fetched !! filePath fileMeta)
               ++ default [] (drafts !! filePath fileMeta))).
Proof.
  unfold loadedThreads.
  destruct (_buildThreadsFromComments _ _) as [built|] eqn:Hb; [|done].
  simpl. f_equal. apply filter_Forall_id.
  apply buildThreads_per_root in Hb.
  apply Forall2_Forall_r with (Q := λ t, length t ≠ 0%nat) in Hb; [done|].
  apply Forall_forall. intros r _ t [Hr _] Hlen.
  destruct t; [by apply elem_of_nil in Hr|done].
Qed.

Lemma registerComments_lookup this th cs k :
  _threadMap (registerComments this th cs) !! k =
    if decide (k ∈ Comment.id <$> cs) then Some th else _threadMap this !! k.
Proof.
  unfold registerComments. cbn [_threadMap]. generalize (_threadMap this) as m.
  induction cs as [|c cs IH]; intros m.
  - destruct (decide _) as [Hin|]; [by apply elem_of_nil in Hin|done].
  - cbn [foldl]. rewrite IH, fmap_cons.
    destruct (decide (k ∈ Comment.id <$> cs)) as [Hin|Hnot].
    + by rewrite decide_True by (by right).
    + destruct (decide (Comment.id c = k)) as [<-|Hne].
      * rewrite decide_True by (by left). by rewrite lookup_insert_eq.
      * rewrite decide_False by (by intros [?|?]%elem_of_cons).
        by rewrite lookup_insert_ne.
Qed.

(** X12: after [registerComments(thread, ...comments)],
    [getThreadByComment] returns [thread] for every comment whose id is the id
    of one of the comments, and what it returned before for every other
    comment; the line counts are not touched. *)
Theorem registerComments_then_getThreadByComment
    (this : DocumentCommentManager.t) (thread : GerritCommentThread)
    (comments : list GerritCommentBase) (c : GerritCommentBase) :
  getThreadByComment (registerComments this thread comments) c =
    (if decide (Comment.id c ∈ Comment.id <$> comments) then Some thread
     else getThreadByComment this c) ∧
  ∀ L, getLineThreadCount (registerComments this thread comments) L
       = getLineThreadCount this L.
Proof. split; [apply registerComments_lookup|done]. Qed.

(** X13: after [registerNewThread(thread)], every comment of the thread is
    mapped to the thread, and a comment with another id is mapped as
    before. *)
Theorem registerNewThread_then_getThreadByComment
    (this : DocumentCommentManager.t) (thread : GerritCommentThread)
    (c : GerritCommentBase) :
  (c ∈ threadComments thread →
   getThreadByComment (registerNewThread this thread) c = Some thread) ∧
  (Comment.id c ∉ Comment.id <$> threadComments thread →
   getThreadByComment (registerNewThread this thread) c = getThreadByComment this c).
Proof.
  unfold registerNewThread, getThreadByComment. rewrite registerComments_lookup.
  split; intros Hc.
  - rewrite decide_True; [done|]. by apply list_elem_of_fmap_2.
  - by rewrite decide_False.
Qed.

Local Abbreviation createdFor := (createdFor gerritRangeToVSCodeRange).

Lemma createdFor_cons t threads k th :
  createdFor threads k th → createdFor (t :: threads) k th.
Proof. intros (t' & ? & ? & ? & ?). exists t'. split; [by right|done]. Qed.

Lemma registerThreads_registers threads this ctrl this' ctrl' :
  (∀ vt, is_Some (GerritCommentThread_from vt)) →
  for_of registerThread' threads (this, ctrl) = (Normal (), (this', ctrl')) →
  (∀ k th, _threadMap this !! k = Some th →
           ∃ th', _threadMap this' !! k = Some th' ∧
                  (th' = th ∨ createdFor threads k th')) ∧
  (∀ t c, t ∈ threads → hasAnchor' t → c ∈ t →
          ∃ th, _threadMap this' !! Comment.id c = Some th ∧
                createdFor threads (Comment.id c) th).
Proof.
  intros Hfrom. revert this ctrl.
  induction threads as [|t0 threads IH]; intros this ctrl Hloop.
  - simpl in Hloop. injection Hloop as <- <-. split.
    + intros k th Hk. exists th. split; [done|by left].
    + intros t c Ht. by apply elem_of_nil in Ht.
  - cbn [for_of] in Hloop. unfold registerThread at 1, createCommentThread in Hloop.
    destruct (head t0) as [c0|] eqn:Hhead; [|done].
    destruct (getCommentRange gerritRangeToVSCodeRange c0) as [[range|]|] eqn:Hrange;
      [| |done].
    + cbn [vscode.createCommentThread] in Hloop.
      destruct (Hfrom (vscode.mkCommentThread (length ctrl) (document this) range t0))
        as [gth Hgth].
      rewrite Hgth in Hloop. cbn [fmap option_fmap option_map] in Hloop.
      assert (hasAnchor' t0) as Hanchor by (by exists c0, range).
      destruct (IH _ _ Hloop) as [Hkeep Hnew]. split.
      * intros k th Hk.
        destruct (decide (k ∈ Comment.id <$> t0)) as [Hin|Hnot].
        -- destruct (Hkeep k (setComments gth t0)) as (th' & Hth' & Hor).
           { by rewrite registerComments_lookup, decide_True. }
           exists th'. split; [done|]. right.
           destruct Hor as [->|Hc]; [|by apply createdFor_cons].
           exists t0. split; [by left|done].
        -- destruct (Hkeep k th) as (th' & Hth' & Hor).
           { by rewrite registerComments_lookup, decide_False. }
           exists th'. split; [done|].
           destruct Hor as [->|Hc]; [by left|right; by apply createdFor_cons].
      * intros t c [->|Ht]%elem_of_cons Ht0 Hc.
        -- destruct (Hkeep (Comment.id c) (setComments gth t0)) as (th' & Hth' & Hor).
           { rewrite registerComments_lookup, decide_True; [done|].
             by apply list_elem_of_fmap_2. }
           exists th'. split; [done|].
           destruct Hor as [->|Hcr]; [|by apply createdFor_cons].
           exists t0. split; [by left|]. split; [done|].
           split; [by apply list_elem_of_fmap_2|done].
        -- destruct (Hnew t c Ht Ht0 Hc) as (th & Hth & Hcr).
           exists th. split; [done|by apply createdFor_cons].
    + destruct (IH _ _ Hloop) as [Hkeep Hnew]. split.
      * intros k th Hk. destruct (Hkeep k th Hk) as (th' & Hth' & Hor).
        exists th'. split; [done|].
        destruct Hor as [->|Hc]; [by left|right; by apply createdFor_cons].
      * intros t c [->|Ht]%elem_of_cons Ht0 Hc.
        -- destruct Ht0 as (c0' & r & Hc0' & Hr). rewrite Hhead in Hc0'.
           injection Hc0' as <-. by rewrite Hrange in Hr.
        -- destruct (Hnew t c Ht Ht0 Hc) as (th & Hth & Hcr).
           exists th. split; [done|by apply createdFor_cons].
Qed.

(** X14: when both fetches are fulfilled, the builder returns, and
    [getCommentRange] throws for the first comment of no built thread,
    [loadComments] ends normally and adds to the count of every line the
    number of built threads whose first comment is on that line (line [-1]
    for a first comment without range and line); it adds them again when it
    is called again. *)
Theorem loadComments_counts_threads_per_line
    (fuel : nat) (this : DocumentCommentManager.t) (ctrl : vscode.CommentController)
    (fileMeta : FileMeta) (fetched drafts : gmap string (list GerritCommentBase))
    (threads : list (list GerritCommentBase)) :
  tryGetFileMeta (document this) = Some fileMeta →
  loadedThreads' fuel fileMeta fetched drafts = Some threads →
  Forall rangeDefined' threads →
  ∃ this' ctrl',
    loadComments' fuel this ctrl (Fulfilled fetched) (Fulfilled drafts)
      = Some (Normal (), (this', ctrl')) ∧
    document this' = document this ∧
    ∀ L, getLineThreadCount this' L =
         getLineThreadCount this L
         + Z.of_nat (length (filter (λ t, threadLine' t = Normal L) threads)).
Proof.
  intros Hmeta Hthreads Hdef.
  pose proof (loadedThreads_nonempty truthy_side _ _ _ _ _ Hthreads) as Hne.
  destruct (countThreads_spec gerritRangeToVSCodeRange threads this Hne Hdef)
    as (this1 & Hloop1 & Hdoc1 & Hmap1 & Hcount1).
  destruct (registerThreads_spec gerritRangeToVSCodeRange tryGetFileMeta
              GerritCommentThread_from threads this1 ctrl Hne Hdef)
    as (this' & ctrl' & Hloop2 & Hdoc2 & Hcount2 & _).
  exists this', ctrl'. split; [|split].
  - unfold loadComments. rewrite Hmeta, Hthreads. simpl. by rewrite Hloop1, Hloop2.
  - congruence.
  - intros L. rewrite <-Hcount1. unfold getLineThreadCount. by rewrite Hcount2.
Qed.


(** X26: [loadComments] is rejected when the first comment of a built
    thread has no range and a negative line, for [new Position] throws on
    the line before it.  The first loop has then counted the threads in
    front of that thread, whose counts stay; no editor thread has been
    created and no comment has been registered. *)
Theorem loadComments_rejects_at_negative_line
    (fuel : nat) (this : DocumentCommentManager.t) (ctrl : vscode.CommentController)
    (fileMeta : FileMeta) (fetched drafts : gmap string (list GerritCommentBase))
    (pre post : list (list GerritCommentBase))
    (thread : list GerritCommentBase) (c0 : GerritCommentBase) (l : Z) :
  tryGetFileMeta (document this) = Some fileMeta →
  loadedThreads' fuel fileMeta fetched drafts = Some (pre ++ thread :: post) →
  Forall rangeDefined' pre →
  head thread = Some c0 →
  Comment.range c0 = None → Comment.line c0 = Some l → l < 0 →
  ∃ this',
    loadComments' fuel this ctrl (Fulfilled fetched) (Fulfilled drafts)
      = Some (Throw, (this', ctrl)) ∧
    (∀ c, getThreadByComment this' c = getThreadByComment this c) ∧
    ∀ L, getLineThreadCount this' L =
         getLineThreadCount this L
         + Z.of_nat (length (filter (λ t, threadLine' t = Normal L) pre)).
Proof.
  intros Hmeta Hthreads Hdef Hhead Hrange Hline Hneg.
  pose proof (loadedThreads_nonempty truthy_side _ _ _ _ _ Hthreads) as Hne.
  apply Forall_app in Hne as [Hne _].
  pose proof (getCommentRange_negative_line gerritRangeToVSCodeRange c0 l
                Hrange Hline Hneg) as Hthrow.
  destruct (countThreads_throws gerritRangeToVSCodeRange pre thread post this c0
              Hne Hdef Hhead Hthrow)
    as (this' & Hloop & Hdoc & Hmap & Hcount).
  exists this'. split; [|split; [|done]].
  - unfold loadComments. rewrite Hmeta, Hthreads. simpl. by rewrite Hloop.
  - intros c. unfold getThreadByComment. by rewrite Hmap.
Qed.

End registry_more.

Lemma loadComments_counts_threads_per_line_witness :
  (Sample.metaOf (DocumentCommentManager.document (DocumentCommentManager.new "a.ts"))
     = Some Sample.metaRight ∧
   DocumentCommentManager.loadedThreads Sample.truthyAlways 3 Sample.metaRight
     {["a.ts" := [Sample.lateRoot; Sample.earlyReply]]} ∅
     = Some [[Sample.earlyReply; Sample.lateRoot]] ∧
   Forall (DocumentCommentManager.rangeDefined Sample.rangeOf)
     [[Sample.earlyReply; Sample.lateRoot]]) ∧
  ∃ this' ctrl',
    DocumentCommentManager.loadComments Sample.truthyAlways Sample.rangeOf
      Sample.metaOf Sample.wrap 3 (DocumentCommentManager.new "a.ts") []
      (Fulfilled {["a.ts" := [Sample.lateRoot; Sample.earlyReply]]}) (Fulfilled ∅)
      = Some (Normal (), (this', ctrl')) ∧
    DocumentCommentManager.document this'
      = DocumentCommentManager.document (DocumentCommentManager.new "a.ts") ∧
    ∀ L, DocumentCommentManager.getLineThreadCount this' L =
         DocumentCommentManager.getLineThreadCount (DocumentCommentManager.new "a.ts") L
         + Z.of_nat (length (filter
                               (λ t, DocumentCommentManager.threadLine Sample.rangeOf t
                                     = Normal L)
                               [[Sample.earlyReply; Sample.lateRoot]])).
Proof.
  assert (H1 : Sample.metaOf
                 (DocumentCommentManager.document (DocumentCommentManager.new "a.ts"))
               = Some Sample.metaRight) by reflexivity.
  assert (H2 : DocumentCommentManager.loadedThreads Sample.truthyAlways 3
                 Sample.metaRight {["a.ts" := [Sample.lateRoot; Sample.earlyReply]]} ∅
               = Some [[Sample.earlyReply; Sample.lateRoot]])
    by (vm_compute; reflexivity).
  assert (H3 : Forall (DocumentCommentManager.rangeDefined Sample.rangeOf)
                 [[Sample.earlyReply; Sample.lateRoot]])
    by (apply (bool_decide_unpack _); vm_compute; exact I).
  split; [by repeat split|].
  exact (loadComments_counts_threads_per_line Sample.truthyAlways Sample.rangeOf
           Sample.metaOf Sample.wrap 3 (DocumentCommentManager.new "a.ts") []
           Sample.metaRight {["a.ts" := [Sample.lateRoot; Sample.earlyReply]]} ∅
           [[Sample.earlyReply; Sample.lateRoot]] H1 H2 H3).
Defined.


Lemma loadComments_rejects_at_negative_line_witness :
  (Sample.metaOf (DocumentCommentManager.document (DocumentCommentManager.new "a.ts"))
     = Some Sample.metaRight ∧
   DocumentCommentManager.loadedThreads Sample.truthyAlways 3 Sample.metaRight
     {["a.ts" := [Sample.lateRoot; Sample.negativeRoot; Sample.rootTwin]]} ∅
     = Some ([[Sample.lateRoot]] ++ [Sample.negativeRoot] :: [[Sample.rootTwin]]) ∧
   Forall (DocumentCommentManager.rangeDefined Sample.rangeOf) [[Sample.lateRoot]] ∧
   head [Sample.negativeRoot] = Some Sample.negativeRoot ∧
   Comment.range Sample.negativeRoot = None ∧
   Comment.line Sample.negativeRoot = Some (-1) ∧ -1 < 0) ∧
  ∃ this',
    DocumentCommentManager.loadComments Sample.truthyAlways Sample.rangeOf
      Sample.metaOf Sample.wrap 3 (DocumentCommentManager.new "a.ts") []
      (Fulfilled {["a.ts" := [Sample.lateRoot; Sample.negativeRoot; Sample.rootTwin]]})
      (Fulfilled ∅)
      = Some (Throw, (this', [])) ∧
    (∀ c, DocumentCommentManager.getThreadByComment this' c
          = DocumentCommentManager.getThreadByComment
              (DocumentCommentManager.new "a.ts") c) ∧
    ∀ L, DocumentCommentManager.getLineThreadCount this' L =
         DocumentCommentManager.getLineThreadCount (DocumentCommentManager.new "a.ts") L
         + Z.of_nat (length (filter
                               (λ t, DocumentCommentManager.threadLine Sample.rangeOf t
                                     = Normal L)
                               [[Sample.lateRoot]])).
Proof.
  assert (H1 : Sample.metaOf
                 (DocumentCommentManager.document (DocumentCommentManager.new "a.ts"))
               = Some Sample.metaRight) by reflexivity.
  assert (H2 : DocumentCommentManager.loadedThreads Sample.truthyAlways 3
                 Sample.metaRight
                 {["a.ts" := [Sample.lateRoot; Sample.negativeRoot; Sample.rootTwin]]} ∅
               = Some ([[Sample.lateRoot]] ++ [Sample.negativeRoot]
                                           :: [[Sample.rootTwin]]))
    by (vm_compute; reflexivity).
  assert (H3 : Forall (DocumentCommentManager.rangeDefined Sample.rangeOf)
                 [[Sample.lateRoot]])
    by (apply (bool_decide_unpack _); vm_compute; exact I).
  assert (H4 : -1 < 0) by lia.
  split; [by repeat split|].
  exact (loadComments_rejects_at_negative_line Sample.truthyAlways Sample.rangeOf
           Sample.metaOf Sample.wrap 3 (DocumentCommentManager.new "a.ts") []
           Sample.metaRight
           {["a.ts" := [Sample.lateRoot; Sample.negativeRoot; Sample.rootTwin]]} ∅
           [[Sample.lateRoot]] [[Sample.rootTwin]] [Sample.negativeRoot]
           Sample.negativeRoot (-1) H1 H2 H3 eq_refl eq_refl eq_refl H4).
Defined.

(** ** Disposing a registry *)

(** X16: [dispose] calls [dispose()] on exactly the threads the registry
    has registered and clears the comment-to-thread map, so that
    [getThreadByComment] returns [null] for every comment afterwards; the
    line counts stay as they were; and a second [dispose] finds no thread to
    dispose and changes nothing. *)
Theorem dispose_clears_threads_keeps_counts (this : DocumentCommentManager.t) :
  (∀ th, th ∈ (DocumentCommentManager_dispose this).1 ↔
         ∃ k, DocumentCommentManager._threadMap this !! k = Some th) ∧
  (∀ c, DocumentCommentManager.getThreadByComment
          (DocumentCommentManager_dispose this).2 c = None) ∧
  (∀ L, DocumentCommentManager.getLineThreadCount
          (DocumentCommentManager_dispose this).2 L
        = DocumentCommentManager.getLineThreadCount this L) ∧
  DocumentCommentManager_dispose (DocumentCommentManager_dispose this).2
    = ([], (DocumentCommentManager_dispose this).2).
Proof.
  unfold DocumentCommentManager_dispose. simpl. split; [|split; [|split]].
  - intros th. rewrite list_elem_of_fmap. split.
    + intros ([k th'] & -> & Hin). exists k. by apply elem_of_map_to_list.
    + intros (k & Hk). exists (k, th). split; [done|]. by apply elem_of_map_to_list.
  - intros c. unfold DocumentCommentManager.getThreadByComment. simpl.
    apply lookup_empty.
  - done.
  - by rewrite map_to_list_empty.
Qed.

(** ** The directory *)

Section directory_more.
Import CommentManager.
Context (tryGetFileMeta : vscode.Uri → option FileMeta).
Context (fileMetaToKey : FileMeta → string).

Local Abbreviation opened := (provideCommentingRanges tryGetFileMeta fileMetaToKey).
Local Abbreviation lookupManagers := (getFileManagersForUri tryGetFileMeta fileMetaToKey).
Local Abbreviation closed := (onDidCloseTextDocument tryGetFileMeta fileMetaToKey).

Lemma provideCommentingRanges_appends st document meta :
  tryGetFileMeta document = Some meta →
  opened st document =
    mk (objects st ++ [DocumentCommentManager.new document])
       (<[fileMetaToKey meta := length (objects st)]> (_commentManagers st))
       (<[filePath meta :=
            default [] (_commentManagersByFilePath st !! filePath meta)
            ++ [length (objects st)]]> (_commentManagersByFilePath st)).
Proof.
  unfold provideCommentingRanges. intros ->.
  destruct (_commentManagersByFilePath st !! filePath meta) as [managers|] eqn:Hm.
  - rewrite decide_True by eauto. by rewrite Hm.
  - rewrite decide_False by (by intros [? ?]).
    rewrite lookup_insert_eq. simpl. by rewrite insert_insert_eq.
Qed.

(** X17: after the callback for an opened document has run, a lookup for
    any uri of the same file path returns the list the path had before
    followed by the new registry, and creates nothing. *)
Theorem provideCommentingRanges_then_getFileManagersForUri
    (st : CommentManager.t) (document uri : vscode.Uri) (meta meta' : FileMeta) :
  tryGetFileMeta document = Some meta →
  tryGetFileMeta uri = Some meta' →
  filePath meta' = filePath meta →
  lookupManagers (opened st document) uri =
    (default [] (_commentManagersByFilePath st !! filePath meta)
     ++ [length (objects st)],
     opened st document).
Proof.
  intros Hdoc Huri Hpath.
  apply getFileManagersForUri_existing with (meta := meta'); [done|].
  rewrite (provideCommentingRanges_appends st document meta Hdoc). simpl.
  by rewrite Hpath, lookup_insert_eq.
Qed.

(** X18: opening the same document twice leaves both registries in the
    list of the file path, while [_commentManagers] holds only the second
    one. *)
Theorem provideCommentingRanges_twice_accumulates
    (st : CommentManager.t) (document : vscode.Uri) (meta : FileMeta) :
  tryGetFileMeta document = Some meta →
  _commentManagersByFilePath (opened (opened st document) document) !! filePath meta
    = Some (default [] (_commentManagersByFilePath st !! filePath meta)
            ++ [length (objects st); S (length (objects st))]) ∧
  _commentManagers (opened (opened st document) document) !! fileMetaToKey meta
    = Some (S (length (objects st))).
Proof.
  intros Hdoc.
  rewrite (provideCommentingRanges_appends (opened st document) document meta Hdoc).
  rewrite (provideCommentingRanges_appends st document meta Hdoc). simpl.
  rewrite !lookup_insert_eq. simpl. rewrite length_app. simpl.
  rewrite <-app_assoc. simpl.
  by replace (length (objects st) + 1)%nat with (S (length (objects st))) by lia.
Qed.


End directory_more.

Lemma provideCommentingRanges_then_getFileManagersForUri_witness :
  (Sample.metaOf "a.ts" = Some Sample.metaRight ∧
   Sample.metaOf "a.ts?side=left" = Some Sample.metaRight ∧
   filePath Sample.metaRight = filePath Sample.metaRight) ∧
  CommentManager.getFileManagersForUri Sample.metaOf Sample.keyOf
    (CommentManager.provideCommentingRanges Sample.metaOf Sample.keyOf
       CommentManager.init "a.ts") "a.ts?side=left"
  = (default [] (CommentManager._commentManagersByFilePath CommentManager.init
                   !! filePath Sample.metaRight)
     ++ [length (CommentManager.objects CommentManager.init)],
     CommentManager.provideCommentingRanges Sample.metaOf Sample.keyOf
       CommentManager.init "a.ts").
Proof.
  split; [done|].
  exact (provideCommentingRanges_then_getFileManagersForUri Sample.metaOf Sample.keyOf
           CommentManager.init "a.ts" "a.ts?side=left" Sample.metaRight Sample.metaRight
           eq_refl eq_refl eq_refl).
Defined.

Lemma provideCommentingRanges_twice_accumulates_witness :
  Sample.metaOf "a.ts" = Some Sample.metaRight ∧
  CommentManager._commentManagersByFilePath
    (CommentManager.provideCommentingRanges Sample.metaOf Sample.keyOf
       (CommentManager.provideCommentingRanges Sample.metaOf Sample.keyOf
          CommentManager.init "a.ts") "a.ts") !! filePath Sample.metaRight
    = Some (default [] (CommentManager._commentManagersByFilePath CommentManager.init
                          !! filePath Sample.metaRight)
            ++ [length (CommentManager.objects CommentManager.init);
                S (length (CommentManager.objects CommentManager.init))]) ∧
  CommentManager._commentManagers
    (CommentManager.provideCommentingRanges Sample.metaOf Sample.keyOf
       (CommentManager.provideCommentingRanges Sample.metaOf Sample.keyOf
          CommentManager.init "a.ts") "a.ts") !! Sample.keyOf Sample.metaRight
    = Some (S (length (CommentManager.objects CommentManager.init))).
Proof.
  split; [done|].
  exact (provideCommentingRanges_twice_accumulates Sample.metaOf Sample.keyOf
           CommentManager.init "a.ts" Sample.metaRight eq_refl).
Defined.


(** ** The context properties *)

Section context_facts.
Import Context.

Lemma read_assign (o : Props) key value key' :
  read (assign o key value) key' =
    if decide (key = key') then value else read o key'.
Proof.
  induction o as [|[k v] o IH]; simpl.
  - by destruct (decide (key = key')).
  - destruct (decide (k = key)) as [->|Hk]; simpl.
    + destruct (decide (key = key')); [done|done].
    + destruct (decide (k = key')) as [->|?]; [by rewrite decide_False|done].
Qed.

Lemma keys_assign (o : Props) key value :
  (assign o key value).*1 = if decide (key ∈ o.*1) then o.*1 else o.*1 ++ [key].
Proof.
  induction o as [|[k v] o IH].
  - destruct (decide _) as [Hin|]; [by apply elem_of_nil in Hin|done].
  - cbn [assign]. rewrite !fmap_cons. cbn [fst].
    destruct (decide (k = key)) as [->|Hk].
    + by rewrite fmap_cons, decide_True by (by left).
    + rewrite fmap_cons, IH. cbn [fst].
      destruct (decide (key ∈ o.*1)) as [Hin|Hnot].
      * by rewrite decide_True by (by right).
      * rewrite decide_False; [done|]. by intros [?|?]%elem_of_cons.
Qed.

Lemma assign_read_id (o : Props) key :
  key ∈ o.*1 → assign o key (read o key) = o.
Proof.
  induction o as [|[k v] o IH]; simpl; intros Hin.
  - by apply elem_of_nil in Hin.
  - destruct (decide (k = key)) as [->|Hk]; [done|]. f_equal. apply IH.
    by apply elem_of_cons in Hin as [?|?].
Qed.

(** X20: after [setContextProp(key, value)], [getContextProp(key)] returns
    the value and every other property reads as before; the object keeps its
    properties in place (a new one is added at the end); and one
    [setContext] command with the key and the value has been issued. *)
Theorem setContextProp_then_getContextProp
    (w : Context.t) (key : string) (value : ContextValue) :
  getContextProp (setContextProp w key value) key = value ∧
  (∀ key', key' ≠ key →
           getContextProp (setContextProp w key value) key' = getContextProp w key') ∧
  (contextProps (setContextProp w key value)).*1
    = (if decide (key ∈ (contextProps w).*1) then (contextProps w).*1
       else (contextProps w).*1 ++ [key]) ∧
  setContextCalls (setContextProp w key value) = setContextCalls w ++ [(key, value)].
Proof.
  unfold getContextProp, setContextProp. simpl. split; [|split; [|split]].
  - by rewrite read_assign, decide_True.
  - intros key' Hne. by rewrite read_assign, decide_False.
  - apply keys_assign.
  - done.
Qed.

Lemma setDefaultContexts_foldl (keys : list string) (w : Context.t) :
  (∀ k, k ∈ keys → k ∈ (contextProps w).*1) →
  foldl (λ w' key, setContextProp w' key (read (contextProps w') key)) w keys =
    mk (contextProps w)
       (setContextCalls w ++ ((λ k, (k, read (contextProps w) k)) <$> keys)).
Proof.
  revert w. induction keys as [|k keys IH]; intros w Hkeys; simpl.
  - rewrite app_nil_r. by destruct w.
  - rewrite IH.
    + unfold setContextProp. simpl.
      rewrite assign_read_id by (apply Hkeys; by left).
      by rewrite <-app_assoc.
    + intros k' Hk'. unfold setContextProp. simpl.
      rewrite assign_read_id by (apply Hkeys; by left). apply Hkeys. by right.
Qed.

(** X21: [setDefaultContexts] leaves every context property as it is and
    issues one [setContext] command for each property, in the order of the
    properties, with the value the property has. *)
Theorem setDefaultContexts_resends_all (w : Context.t) :
  contextProps (setDefaultContexts w) = contextProps w ∧
  setContextCalls (setDefaultContexts w) =
    setContextCalls w
    ++ ((λ k, (k, getContextProp w k)) <$> (contextProps w).*1).
Proof.
  unfold setDefaultContexts. by rewrite setDefaultContexts_foldl.
Qed.

End context_facts.

(** ** More on threads, deduplication and editor threads *)

(** X23: in a thread the builder returns, every comment other than the
    thread's root replies to the id of a comment of the thread, whatever the
    input. *)
Theorem thread_members_reply_within_thread
    (all : list GerritCommentBase) (fuel : nat)
    (threads : list (list GerritCommentBase)) :
  DocumentCommentManager._buildThreadsFromComments fuel all = Some threads →
  Forall2 (λ r t, ∀ x, x ∈ t →
                       x = r ∨ ∃ p, Comment.inReplyTo x = Some p ∧ p ∈ Comment.id <$> t)
          (rootsOf all) threads.
Proof.
  intros Hb. apply buildThreads_per_root in Hb.
  eapply Forall2_impl; [exact Hb|]. intros r t (_ & Hsound & Hcomplete) x Hx.
  apply Hsound in Hx. apply rtc_inv_r in Hx as [->|(y & Hy & [_ Hxy])]; [by left|].
  right. exists (Comment.id y). split; [done|]. by apply Hcomplete.
Qed.

Lemma thread_members_reply_within_thread_witness :
  DocumentCommentManager._buildThreadsFromComments 4
    [Sample.c1; Sample.d2; Sample.d2'; Sample.d3]
    = Some [[Sample.d3; Sample.d2; Sample.c1]] ∧
  Forall2 (λ r t, ∀ x, x ∈ t →
                       x = r ∨ ∃ p, Comment.inReplyTo x = Some p ∧ p ∈ Comment.id <$> t)
          (rootsOf [Sample.c1; Sample.d2; Sample.d2'; Sample.d3])
          [[Sample.d3; Sample.d2; Sample.c1]].
Proof.
  split; [reflexivity|].
  exact (thread_members_reply_within_thread
           [Sample.c1; Sample.d2; Sample.d2'; Sample.d3] 4
           [[Sample.d3; Sample.d2; Sample.c1]] eq_refl).
Defined.

Lemma uniqueComplex_push_id (s : list string) (x : string) :
  uniqueComplex_push (λ i, i) s x =
    if decide (x ∈ s ∧ x ≠ "") then s else s ++ [x].
Proof.
  rewrite push_spec.
  destruct (filter (λ y, y = x) s) as [|first rest] eqn:Hs; cbn [head].
  - rewrite decide_False; [done|]. intros [Hin _].
    assert (x ∈ filter (λ y, y = x) s) as Hx by (by apply list_elem_of_filter).
    rewrite Hs in Hx. by apply elem_of_nil in Hx.
  - assert (first ∈ filter (λ y, y = x) s) as [-> Hin]%list_elem_of_filter
      by (rewrite Hs; by left).
    unfold truthy, string_truthy. destruct (decide (x = "")) as [->|Hne].
    + rewrite bool_decide_false by (by intros ?). by rewrite decide_False by tauto.
    + rewrite bool_decide_true by done. by rewrite decide_True.
Qed.

(** Away from the empty string the two loops push the same items. *)
Lemma foldl_push_Set_add (arr s : list string) :
  ("" ∈ s → "" ∉ arr) →
  (length (filter (λ x, x = "") arr) ≤ 1)%nat →
  foldl (uniqueComplex_push (λ i, i)) s arr = foldl Set_add s arr.
Proof.
  revert s. induction arr as [|a arr IH]; intros s Hs Hlen; cbn [foldl]; [done|].
  rewrite filter_cons in Hlen.
  assert (uniqueComplex_push (λ i, i) s a = Set_add s a) as ->.
  { rewrite uniqueComplex_push_id. unfold Set_add.
    destruct (decide (a = "")) as [->|Hne].
    - rewrite decide_False by tauto. rewrite decide_False; [done|].
      intros Hin. apply (Hs Hin). by left.
    - destruct (decide (a ∈ s)); [by rewrite decide_True|].
      by rewrite decide_False by tauto. }
  apply IH.
  - intros Hin Harr. destruct (decide (a = "")) as [->|Hne].
    + simpl in Hlen.
      assert ("" ∈ filter (λ x, x = "") arr) as Hf by (by apply list_elem_of_filter).
      destruct (filter _ arr); [by apply elem_of_nil in Hf|]. simpl in Hlen. lia.
    + apply Hs; [|by right]. unfold Set_add in Hin.
      destruct (decide (a ∈ s)); [done|].
      apply elem_of_app in Hin as [?|Hin%list_elem_of_singleton]; [done|].
      by subst.
  - destruct (decide (a = "")); simpl in Hlen; lia.
Qed.

Lemma NoDup_filter_eq_length `{EqDecision A} (l : list A) (x : A) :
  NoDup l → (length (filter (λ y, y = x) l) ≤ 1)%nat.
Proof.
  induction 1 as [|a l Ha _ IH]; [simpl; lia|]. rewrite filter_cons.
  destruct (decide (a = x)) as [->|Hne]; [|done]. simpl.
  destruct (filter _ l) as [|b rest] eqn:Hf; [simpl; lia|].
  assert (b ∈ filter (λ y, y = x) l) as [-> Hin]%list_elem_of_filter
    by (rewrite Hf; by left).
  done.
Qed.

(** The two functions on an array that holds the empty string twice. *)
Example uniqueComplex_falsy_items :
  uniqueComplex ["a"; ""; "a"; ""; "b"; ""] (λ i, i) = ["a"; ""; ""; "b"; ""] ∧
  uniqueSimple ["a"; ""; "a"; ""; "b"; ""] = ["a"; ""; "b"].
Proof. split; reflexivity. Qed.

(** X24: on an array of strings, [uniqueSimple] returns what
    [uniqueComplex] returns with the string itself as the key exactly when
    the array holds the empty string at most once: the empty string is
    falsy, so [uniqueComplex] pushes every occurrence of it. *)
Theorem uniqueSimple_is_uniqueComplex_iff (arr : list string) :
  uniqueSimple arr = uniqueComplex arr (λ i, i) ↔
  (length (filter (λ x, x = "") arr) ≤ 1)%nat.
Proof.
  split.
  - intros Heq.
    pose proof (uniqueComplex_withKey (λ i : string, i) "" arr) as Hkeep.
    assert (filter (λ x, x = "") (uniqueComplex arr (λ i, i))
            = filter (λ x, x = "") arr) as Hall.
    { rewrite Hkeep.
      destruct (filter (λ x, x = "") arr) as [|first rest] eqn:Hf; [done|].
      assert (first ∈ filter (λ x, x = "") arr) as [-> _]%list_elem_of_filter
        by (rewrite Hf; by left).
      done. }
    rewrite <-Hall, <-Heq. apply NoDup_filter_eq_length.
    apply uniqueSimple_NoDup.
  - intros Hlen. unfold uniqueSimple, uniqueComplex. symmetry.
    apply foldl_push_Set_add; [|done]. by intros ?%elem_of_nil.
Qed.

Section editor_threads.
Import DocumentCommentManager.
Context (truthy_side : GerritCommentSide → bool).
Context (gerritRangeToVSCodeRange : GerritCommentRange → Completion vscode.Range).
Context (tryGetFileMeta : vscode.Uri → option FileMeta).
Context (GerritCommentThread_from : vscode.CommentThread → option GerritCommentThread).

Local Abbreviation registerThread' :=
  (registerThread gerritRangeToVSCodeRange GerritCommentThread_from).
Local Abbreviation anchored' := (anchored gerritRangeToVSCodeRange).

Lemma registerThreads_created threads this ctrl this' ctrl' :
  for_of registerThread' threads (this, ctrl) = (Normal (), (this', ctrl')) →
  ∃ created,
    ctrl' = ctrl ++ created ∧
    vscode.comments <$> created = filter anchored' threads ∧
    Forall (λ th, vscode.uri th = document this) created.
Proof.
  revert this ctrl. induction threads as [|t0 threads IH]; intros this ctrl Hloop.
  - simpl in Hloop. injection Hloop as <- <-. exists []. by rewrite app_nil_r.
  - cbn [for_of] in Hloop. unfold registerThread at 1, createCommentThread in Hloop.
    destruct t0 as [|c0 t0]; [done|]. cbn [head] in Hloop.
    destruct (getCommentRange gerritRangeToVSCodeRange c0) as [[range|]|] eqn:Hrange;
      [| |done].
    + rewrite filter_cons, decide_True
        by (unfold anchored; cbn [head]; by rewrite Hrange).
      cbn [vscode.createCommentThread] in Hloop.
      destruct (GerritCommentThread_from _) as [gth|];
        cbn [fmap option_fmap option_map] in Hloop;
        destruct (IH _ _ Hloop) as (created & -> & Hcomments & Huri);
        (eexists (_ :: created); split; [by rewrite <-app_assoc|];
         split; [by rewrite fmap_cons, Hcomments|by constructor]).
    + rewrite filter_cons, decide_False
        by (unfold anchored; cbn [head]; rewrite Hrange; intros []).
      by destruct (IH _ _ Hloop) as (created & -> & Hcomments & Huri); exists created.
Qed.

(** X25: when both fetches are fulfilled and [getCommentRange] throws for
    the first comment of no built thread, [loadComments] creates one editor
    thread for each built thread whose first comment has a range, in the
    order of the built threads, for the document of the registry and with the
    comments of the built thread; it creates no other editor thread. *)
Theorem loadComments_creates_editor_threads
    (fuel : nat) (this : DocumentCommentManager.t) (ctrl : vscode.CommentController)
    (fileMeta : FileMeta) (fetched drafts : gmap string (list GerritCommentBase))
    (threads : list (list GerritCommentBase)) :
  tryGetFileMeta (document this) = Some fileMeta →
  loadedThreads truthy_side fuel fileMeta fetched drafts = Some threads →
  Forall (rangeDefined gerritRangeToVSCodeRange) threads →
  ∃ this' created,
    loadComments truthy_side gerritRangeToVSCodeRange tryGetFileMeta
      GerritCommentThread_from fuel this ctrl (Fulfilled fetched) (Fulfilled drafts)
      = Some (Normal (), (this', ctrl ++ created)) ∧
    vscode.comments <$> created = filter anchored' threads ∧
    Forall (λ th, vscode.uri th = document this) created.
Proof.
  intros Hmeta Hthreads Hdef.
  pose proof (loadedThreads_nonempty truthy_side _ _ _ _ _ Hthreads) as Hne.
  destruct (countThreads_spec gerritRangeToVSCodeRange threads this Hne Hdef)
    as (this1 & Hloop1 & Hdoc1 & Hmap1 & Hcount1).
  destruct (registerThreads_spec gerritRangeToVSCodeRange tryGetFileMeta
              GerritCommentThread_from threads this1 ctrl Hne Hdef)
    as (this' & ctrl' & Hloop2 & _).
  destruct (registerThreads_created _ _ _ _ _ Hloop2) as (created & -> & Hc & Huri).
  exists this', created. split; [|split; [done|]].
  - unfold loadComments. rewrite Hmeta, Hthreads. simpl. by rewrite Hloop1, Hloop2.
  - by rewrite <-Hdoc1.
Qed.

End editor_threads.

Lemma loadComments_creates_editor_threads_witness :
  (Sample.metaOf (DocumentCommentManager.document (DocumentCommentManager.new "a.ts"))
     = Some Sample.metaRight ∧
   DocumentCommentManager.loadedThreads Sample.truthyAlways 3 Sample.metaRight
     {["a.ts" := [Sample.lateRoot; Sample.rootTwin]]} ∅
     = Some [[Sample.lateRoot]; [Sample.rootTwin]] ∧
   Forall (DocumentCommentManager.rangeDefined Sample.rangeOf)
     [[Sample.lateRoot]; [Sample.rootTwin]]) ∧
  ∃ this' created,
    DocumentCommentManager.loadComments Sample.truthyAlways Sample.rangeOf
      Sample.metaOf Sample.wrap 3 (DocumentCommentManager.new "a.ts") []
      (Fulfilled {["a.ts" := [Sample.lateRoot; Sample.rootTwin]]}) (Fulfilled ∅)
      = Some (Normal (), (this', [] ++ created)) ∧
    vscode.comments <$> created
      = filter (anchored Sample.rangeOf) [[Sample.lateRoot]; [Sample.rootTwin]] ∧
    Forall (λ th, vscode.uri th
                  = DocumentCommentManager.document (DocumentCommentManager.new "a.ts"))
           created.
Proof.
  assert (H1 : Sample.metaOf
                 (DocumentCommentManager.document (DocumentCommentManager.new "a.ts"))
               = Some Sample.metaRight) by reflexivity.
  assert (H2 : DocumentCommentManager.loadedThreads Sample.truthyAlways 3
                 Sample.metaRight {["a.ts" := [Sample.lateRoot; Sample.rootTwin]]} ∅
               = Some [[Sample.lateRoot]; [Sample.rootTwin]])
    by (vm_compute; reflexivity).
  assert (H3 : Forall (DocumentCommentManager.rangeDefined Sample.rangeOf)
                 [[Sample.lateRoot]; [Sample.rootTwin]])
    by (apply (bool_decide_unpack _); vm_compute; exact I).
  split; [by repeat split|].
  exact (loadComments_creates_editor_threads Sample.truthyAlways Sample.rangeOf
           Sample.metaOf Sample.wrap 3 (DocumentCommentManager.new "a.ts") []
           Sample.metaRight {["a.ts" := [Sample.lateRoot; Sample.rootTwin]]} ∅
           [[Sample.lateRoot]; [Sample.rootTwin]] H1 H2 H3).
Defined.
